(** * config-override: the layered configuration engine of [index.js]

    A shallow embedding of [index.js] (class [Configuration] and its helper
    [_getset]) and the properties of its path accessor, its merge, its
    environment extractor, its parser selection and its file search.

    Conventions of the embedding.
    - JavaScript strings are [string]s of 8-bit characters: the ASCII part
      of the language ([toLowerCase], [trim] and [\s] act on ASCII).
    - Numbers are integers: the program itself only makes the numbers that
      digit runs denote.
    - A configuration tree is a tree: containers (mappings and arrays) hold
      their children, no container is shared or cyclic, as parsers and
      literals produce them.  A container mutated in place through a
      reference is modelled by passing the container's new state back to
      whoever holds it.
    - Only data properties are modelled: the [length] of arrays and strings
      and the characters of a string are, the members that containers
      inherit from their prototypes are not.
    - The file is in strict mode (['use strict'] opens it), so assigning a
      property of a primitive raises a [TypeError]. *)

From stdpp Require Import gmap strings list fin_maps.
From Stdlib Require Import ZArith Ascii String.

Set Warnings "-register-all".
Local Open Scope string_scope.

(** ** Outcomes of a JavaScript computation *)

Inductive exn :=
| TypeError
| RangeError
| ParseError.    (* whatever an external parser raises *)

(** [Unmodelled] marks the few runtime behaviours that the embedding does
    not compute (see [js_put], [replace_delim] and [new_Configuration]);
    [Unfinished] is a search cut short by its bound (see [_find]). *)
Inductive result (A : Type) :=
| Ok (a : A)
| Throw (e : exn)
| Unmodelled
| Unfinished.
Arguments Ok {A} a.
Arguments Throw {A} e.
Arguments Unmodelled {A}.
Arguments Unfinished {A}.

Global Instance result_ret : MRet result := fun _ a => Ok a.
Global Instance result_bind : MBind result := fun _ _ f m =>
  match m with
  | Ok a => f a
  | Throw e => Throw e
  | Unmodelled => Unmodelled
  | Unfinished => Unfinished
  end.

(** ** Strings: the built-ins that [index.js] calls *)

Module Str.

Definition of_list (l : list ascii) : string := string_of_list_ascii l.
Definition to_list (s : string) : list ascii := list_ascii_of_string s.

(** [str.toLowerCase()] *)
Definition lc_char (c : ascii) : ascii :=
  let n := nat_of_ascii c in
  if (65 <=? n)%nat && (n <=? 90)%nat then ascii_of_nat (n + 32) else c.

Fixpoint lc (s : string) : string :=
  match s with
  | EmptyString => EmptyString
  | String c s' => String (lc_char c) (lc s')
  end.

Definition is_digit (c : ascii) : bool :=
  let n := nat_of_ascii c in (48 <=? n)%nat && (n <=? 57)%nat.

Fixpoint all_digits (s : string) : bool :=
  match s with
  | EmptyString => true
  | String c s' => is_digit c && all_digits s'
  end.

(** [rxNumber = /^\d+$/] *)
Definition rxNumber_test (s : string) : bool :=
  match s with
  | EmptyString => false
  | _ => all_digits s
  end.

(** [+str] on a run of digits *)
Fixpoint to_number_from (acc : N) (s : string) : N :=
  match s with
  | EmptyString => acc
  | String c s' => to_number_from (10 * acc + N.of_nat (nat_of_ascii c - 48)) s'
  end.

Definition to_number (s : string) : N := to_number_from 0 s.

(** [str.split(sep)] for a separator of one character *)
Fixpoint split (sep : ascii) (s : string) : list string :=
  match s with
  | EmptyString => [EmptyString]
  | String c s' =>
      if Ascii.eqb c sep then EmptyString :: split sep s'
      else match split sep s' with
           | h :: t => String c h :: t
           | [] => [String c EmptyString]
           end
  end.

(** White space of [trim] and of [\s]: tab, line feed, vertical tab, form
    feed, carriage return, space. *)
Definition is_space (c : ascii) : bool :=
  let n := nat_of_ascii c in
  ((9 <=? n)%nat && (n <=? 13)%nat) || (n =? 32)%nat.

Fixpoint ltrim (s : string) : string :=
  match s with
  | EmptyString => EmptyString
  | String c s' => if is_space c then ltrim s' else s
  end.

Definition rev (s : string) : string := of_list (List.rev (to_list s)).

(** [str.trim()] *)
Definition trim (s : string) : string := rev (ltrim (rev (ltrim s))).

(** [str.startsWith(p)] *)
Fixpoint starts_with (p s : string) : bool :=
  match p, s with
  | EmptyString, _ => true
  | String a p', String b s' => Ascii.eqb a b && starts_with p' s'
  | String _ _, EmptyString => false
  end.

(** [str.substr(n)] *)
Fixpoint substr (n : nat) (s : string) : string :=
  match n, s with
  | O, _ => s
  | S n', String _ s' => substr n' s'
  | S _, EmptyString => EmptyString
  end.

(** [str.lastIndexOf(c)], [-1] when [c] does not occur *)
Fixpoint last_index_from (c : ascii) (i : Z) (found : Z) (s : string) : Z :=
  match s with
  | EmptyString => found
  | String a s' => last_index_from c (i + 1) (if Ascii.eqb a c then i else found) s'
  end.

Definition lastIndexOf (c : ascii) (s : string) : Z := last_index_from c 0 (-1) s.

(** The replacement text of [String.prototype.replace] for a string pattern
    (no capture groups): [$$], [$&], [$`] and [$'] are expanded, any other
    [$] stands for itself. *)
Fixpoint substitution (matched before after tpl : string) : string :=
  match tpl with
  | EmptyString => EmptyString
  | String c tl =>
      if Ascii.eqb c "$" then
        match tl with
        | String d tl' =>
            if Ascii.eqb d "$" then String "$" (substitution matched before after tl')
            else if Ascii.eqb d "&" then matched +:+ substitution matched before after tl'
            else if Ascii.eqb d "`" then before +:+ substitution matched before after tl'
            else if Ascii.eqb d "'" then after +:+ substitution matched before after tl'
            else String c (substitution matched before after tl)
        | EmptyString => String c EmptyString
        end
      else String c (substitution matched before after tl)
  end.

(** [str.replace(c, tpl)] with a pattern of one character: the FIRST
    occurrence only is replaced. *)
Fixpoint replace_from (c : ascii) (tpl : string) (before s : string) : string :=
  match s with
  | EmptyString => EmptyString
  | String a s' =>
      if Ascii.eqb a c
      then substitution (String c EmptyString) (rev before) s' tpl +:+ s'
      else String a (replace_from c tpl (String a before) s')
  end.

Definition replace (c : ascii) (tpl : string) (s : string) : string :=
  replace_from c tpl EmptyString s.

(** [str.replace(new RegExp(pat, 'g'), by)] for a pattern that matches
    itself: every occurrence, left to right, without overlap. *)
Fixpoint replace_all_fuel (fuel : nat) (pat by_ s : string) : string :=
  match fuel with
  | O => s
  | S fuel' =>
      match s with
      | EmptyString => EmptyString
      | String a s' =>
          if starts_with pat s
          then by_ +:+ replace_all_fuel fuel' pat by_ (substr (String.length pat) s)
          else String a (replace_all_fuel fuel' pat by_ s')
      end
  end.

Definition replace_all (pat by_ s : string) : string :=
  replace_all_fuel (S (String.length s)) pat by_ s.

(** Characters with a meaning of their own in a regular expression. *)
Definition regex_special (c : ascii) : bool :=
  existsb (Ascii.eqb c)
    (to_list "\^$.*+?()[]{}|").

Definition regex_literal (pat : string) : bool :=
  match pat with
  | EmptyString => false
  | _ => forallb (fun c => negb (regex_special c)) (to_list pat)
  end.

End Str.

(** ** Values *)

(** A property key as [_getset] holds it after its [map]: a number for a
    run of digits, the segment itself otherwise.  The property that the
    number [n] names is the one that the digits of [n] name, so a [KStr]
    never holds a canonical numeral. *)
Inductive key := KNum (n : N) | KStr (s : string).

Global Instance key_eq_dec : EqDecision key.
Proof. solve_decision. Defined.

Global Instance key_countable : Countable key.
Proof.
  refine (inj_countable'
            (fun k => match k with KNum n => inl n | KStr s => inr s end)
            (fun x => match x with inl n => KNum n | inr s => KStr s end) _).
  by intros [].
Defined.

(** Containers: a mapping [{}] or an array [[]] with its [length]. *)
Inductive kind := KMap | KArr (len : N).

Inductive value :=
| VUndefined
| VNull
| VBool (b : bool)
| VNum (n : Z)
| VStr (s : string)
| VNode (k : kind) (props : gmap key value).

Definition empty_object : value := VNode KMap ∅.
Definition empty_array : value := VNode (KArr 0) ∅.

Definition is_undefined (v : value) : bool :=
  match v with VUndefined => true | _ => false end.

(** [!v] is [negb (truthy v)] *)
Definition truthy (v : value) : bool :=
  match v with
  | VUndefined | VNull => false
  | VBool b => b
  | VNum n => negb (n =? 0)%Z
  | VStr s => negb (String.eqb s EmptyString)
  | VNode _ _ => true
  end.

Definition is_length (k : kind) (key : key) : bool :=
  match k, key with
  | KArr _, KStr s => String.eqb s "length"
  | _, _ => false
  end.

(** Array indices are the integers below [2^32 - 1]. *)
Definition max_index : N := 4294967295.

Definition is_index (key : key) : bool :=
  match key with KNum n => (n <? max_index)%N | KStr _ => false end.

(** [ref[key]] *)
Definition js_get (ref : value) (key : key) : result value :=
  match ref with
  | VUndefined | VNull => Throw TypeError
  | VBool _ | VNum _ => Ok VUndefined
  | VStr s =>
      match key with
      | KNum n =>
          match String.get (N.to_nat n) s with
          | Some c => Ok (VStr (String c EmptyString))
          | None => Ok VUndefined
          end
      | KStr name =>
          if String.eqb name "length" then Ok (VNum (Z.of_nat (String.length s)))
          else Ok VUndefined
      end
  | VNode k props =>
      match k with
      | KArr len => if is_length k key then Ok (VNum (Z.of_N len))
                    else Ok (default VUndefined (props !! key))
      | KMap => Ok (default VUndefined (props !! key))
      end
  end.

(** Defining a data property of a container; an array grows to hold an
    index at or beyond its length. *)
Definition plant (k : kind) (props : gmap key value) (key : key) (v : value) : value :=
  match k, key with
  | KArr len, KNum n =>
      VNode (KArr (if is_index key then N.max len (n + 1) else len)) (<[key := v]> props)
  | _, _ => VNode k (<[key := v]> props)
  end.

(** [arr.length = n]: the elements at [n] and beyond are dropped. *)
Definition kept_below (n : N) (key : key) : bool :=
  match key with
  | KNum i => negb (i <? max_index)%N || (i <? n)%N
  | KStr _ => true
  end.

Definition set_length (props : gmap key value) (n : N) : value :=
  VNode (KArr n) (filter (fun kv => kept_below n kv.1 = true) props).

(** [ref[key] = v] in strict mode; the container after the assignment.
    Assigning an array's [length] is computed for numbers only: what other
    values are converted to is not modelled. *)
Definition js_put (ref : value) (key : key) (v : value) : result value :=
  match ref with
  | VUndefined | VNull | VBool _ | VNum _ | VStr _ => Throw TypeError
  | VNode k props =>
      if is_length k key then
        match v with
        | VNum n => if (0 <=? n)%Z && (n <? 4294967296)%Z
                    then Ok (set_length props (Z.to_N n))
                    else Throw RangeError
        | _ => Unmodelled
        end
      else Ok (plant k props key v)
  end.

(** ** The path accessor [_getset] *)

(** [key => rxNumber.test( key ) ? +key : key] *)
Definition to_key (seg : string) : key :=
  if Str.rxNumber_test seg then KNum (Str.to_number seg) else KStr seg.

(** [accessor.split( '.' ).map( ... )] *)
Definition keys_of (accessor : string) : list key :=
  to_key <$> Str.split "." accessor.

(** [typeof keys[ index + 1 ] === 'number' ? [] : {}] *)
Definition fresh (next : option key) : value :=
  match next with
  | Some (KNum _) => empty_array
  | _ => empty_object
  end.

(** [ref = ref[ key ]] makes [ref] the child itself, so what the rest of
    the loop does to the child is seen from the parent: the parent gets
    the child's final state.  A primitive child cannot change. *)
Definition write_back (ref : value) (key : key) (child : value) : value :=
  match ref, child with
  | VNode k props, VNode _ _ => VNode k (<[key := child]> props)
  | _, _ => ref
  end.

(** The body of [keys.forEach( ( key, index ) => ... )] from the node
    [ref] on; [value_] is [Some v] when [arguments.length === 3].  Returns
    the final [ref] and the state of the node the walk started at. *)
Fixpoint walk (value_ : option value) (ref : value) (keys : list key)
  : result (value * value) :=
  match keys with
  | [] => Ok (ref, ref)
  | key :: rest =>
      cur ← js_get ref key;
      ref1 ← (if is_undefined cur then js_put ref key (fresh (head rest)) else Ok ref);
      ref2 ← (match rest, value_ with
              | [], Some v => js_put ref1 key v
              | _, _ => Ok ref1
              end);
      child ← js_get ref2 key;
      '(last, child') ← walk value_ child rest;
      Ok (last, write_back ref2 key child')
  end.

(** [_getset( obj, accessor, value )]: the returned value and the state of
    the caller's [obj] afterwards.  [value_] is [None] in the two-argument
    form. *)
Definition _getset (obj : value) (accessor : string) (value_ : option value)
  : result (value * value) :=
  if String.eqb accessor EmptyString then Ok (default VUndefined value_, obj)
  else
    let obj0 := if truthy obj then obj else empty_object in
    '(ref, obj1) ← walk value_ obj0 (keys_of accessor);
    Ok (match value_ with Some _ => obj1 | None => ref end,
        if truthy obj then obj1 else obj).

(** ** [Object.assign] and the merge *)

(** The own enumerable properties that [Object.assign] copies from a
    source: those of a container, the characters of a string, none of any
    other primitive ([null] and [undefined] sources are skipped). *)
Definition own_props (src : value) : gmap key value :=
  match src with
  | VNode _ props => props
  | VStr s =>
      list_to_map
        (imap (fun i c => (KNum (N.of_nat i), VStr (String c EmptyString))) (Str.to_list s))
  | _ => ∅
  end.

(** One source copied onto the properties of the target, a mapping: each
    property of the source replaces the target's. *)
Definition assign (target : gmap key value) (src : value) : gmap key value :=
  own_props src ∪ target.

(** [Object.assign( {}, ...sources )] *)
Definition Object_assign (sources : list value) : value :=
  VNode KMap (foldl assign ∅ sources).

(** ** The engine's state: the fields of a [Configuration] *)

Record options := {
  delimiter : string;
  hyphenSubstitute : string;
  extensions : list string;
}.

Definition defaultOptions : options :=
  {| delimiter := "_";
     hyphenSubstitute := "_";
     extensions := [EmptyString; ".json"; ".json5"; ".ini"; ".yml"; ".yaml"; "conf"] |}.

Record Configuration := {
  opts : options;
  _diagnostics : list string;
  appName : string;
  keyAppName : string;
  env : value;
  argv : value;
  defaults : value;
  overrides : value;
  configList : list value;
  configFiles : list string;
  cookedConfigFiles : list string;
  merged : value;
}.

Definition with_merged (m : value) (c : Configuration) : Configuration :=
  {| opts := opts c; _diagnostics := _diagnostics c; appName := appName c;
     keyAppName := keyAppName c; env := env c; argv := argv c;
     defaults := defaults c; overrides := overrides c;
     configList := configList c; configFiles := configFiles c;
     cookedConfigFiles := cookedConfigFiles c; merged := m |}.

Definition with_overrides (o : value) (c : Configuration) : Configuration :=
  {| opts := opts c; _diagnostics := _diagnostics c; appName := appName c;
     keyAppName := keyAppName c; env := env c; argv := argv c;
     defaults := defaults c; overrides := o;
     configList := configList c; configFiles := configFiles c;
     cookedConfigFiles := cookedConfigFiles c; merged := merged c |}.

(** [this._diagnostics.push( fn )] *)
Definition push_diagnostic (fn : string) (c : Configuration) : Configuration :=
  {| opts := opts c; _diagnostics := _diagnostics c ++ [fn]; appName := appName c;
     keyAppName := keyAppName c; env := env c; argv := argv c;
     defaults := defaults c; overrides := overrides c;
     configList := configList c; configFiles := configFiles c;
     cookedConfigFiles := cookedConfigFiles c; merged := merged c |}.

(** The three [push]es that end [add_config_file]. *)
Definition push_config (parsed : value) (file filename : string) (c : Configuration)
  : Configuration :=
  {| opts := opts c; _diagnostics := _diagnostics c; appName := appName c;
     keyAppName := keyAppName c; env := env c; argv := argv c;
     defaults := defaults c; overrides := overrides c;
     configList := configList c ++ [parsed];
     configFiles := configFiles c ++ [file];
     cookedConfigFiles := cookedConfigFiles c ++ [filename];
     merged := merged c |}.

(** [merge()] *)
Definition merge (c : Configuration) : value :=
  Object_assign (defaults c :: configList c ++ [env c; argv c; overrides c]).

(** [get()]: the tree returned and the instance afterwards. *)
Definition get (c : Configuration) : value * Configuration :=
  if truthy (merged c) then (merged c, c)
  else let m := merge c in (m, with_merged m c).

(** [set( key, value )] *)
Definition set (key : string) (v : value) (c : Configuration) : result Configuration :=
  let c1 := with_merged VNull c in
  '(_, o) ← _getset (overrides c1) key (Some v);
  Ok (with_overrides o c1).

(** ** The environment extractor [parse_env] *)

(** [rxNumber.test( value ) ? +value : value === 'true' ? true :
     value === 'false' ? false : value]; [value] is [undefined] when the
    destructuring found no second part. *)
Definition coerce (value_ : option string) : value :=
  match value_ with
  | None => VUndefined
  | Some s =>
      if Str.rxNumber_test s then VNum (Z.of_N (Str.to_number s))
      else if String.eqb s "true" then VBool true
      else if String.eqb s "false" then VBool false
      else VStr s
  end.

(** [key.replace( rxDelim, '.' )], computed for a delimiter that is a
    regular expression matching itself; the meaning of any other pattern
    is not modelled. *)
Definition replace_delim (delim key : string) : result string :=
  if Str.regex_literal delim then Ok (Str.replace_all delim "." key) else Unmodelled.

(** The body of the [reduce] callback for one variable [_key] of [obj]. *)
Definition parse_env_step (keyname delim : string) (envs : value) (entry : string * value)
  : result value :=
  let key := Str.lc entry.1 in
  match entry.2 with
  | VStr s =>
      let value_ := Str.trim s in
      let matched :=
        if String.eqb key keyname then
          (* [[ key, value ] = value.split( '=' )] *)
          let parts := Str.split "=" value_ in
          Some (default EmptyString (parts !! 0%nat), parts !! 1%nat)
        else if Str.starts_with (keyname +:+ delim) key then
          Some (Str.substr (String.length keyname + 1) key, Some value_)
        else None in
      match matched with
      | None => Ok envs
      | Some (key, value_) =>
          key ← (if String.eqb delim "." then Ok key else replace_delim delim key);
          '(_, envs) ← _getset envs key (Some (coerce value_));
          Ok envs
      end
  | _ => Ok envs
  end.

Fixpoint parse_env_from (keyname delim : string) (envs : value) (obj : list (string * value))
  : result value :=
  match obj with
  | [] => Ok envs
  | entry :: more =>
      envs ← parse_env_step keyname delim envs entry;
      parse_env_from keyname delim envs more
  end.

(** [parse_env( obj, delim )]; [obj] is given by its properties in the
    order of [Object.keys]. *)
Definition parse_env (keyname : string) (obj : list (string * value)) (delim : string)
  : result value :=
  if String.eqb delim "." || Str.regex_literal delim
  then parse_env_from keyname delim empty_object obj
  else Unmodelled.

(** ** The host: what [index.js] gets from Node and from its parsers *)

Record Host := {
  platform : string;                          (* [os.platform()] *)
  homedir : string;                           (* [os.homedir()] *)
  cwd : string;                               (* [process.cwd()] *)
  process_env : list (string * value);        (* [process.env] *)
  cli : value;                                (* [minimist( process.argv.slice( 2 ) )] *)
  statSync : string → bool;                   (* [fs.statSync] returns *)
  readFileSync : string → option string;      (* [None]: [fs.readFileSync] throws *)
  path_join : list string → string;           (* [path.join] *)
  path_dirname : string → string;             (* [path.dirname] *)
  path_sep : string;                          (* [path.sep] *)
  (* a bound on the number of directories above a directory *)
  path_depth : string → nat;
  (* the parsers; [None]: the parser throws *)
  ini_parse : string → option value;
  json5_parse : string → option value;
  JSON_parse : string → option value;
  yamljs_parse : string → option value;
}.

(** The parent of a directory is nearer to the root, unless the directory
    is its own parent. *)
Definition well_rooted (h : Host) : Prop :=
  ∀ d, path_dirname h d ≠ d → (path_depth h (path_dirname h d) < path_depth h d)%nat.

(** What [parsers[ ext ]] finds: a parser of the table, or one of the two
    lower-case members that the table inherits from [Object.prototype]. *)
Inductive parser :=
| ini | json5 | json | yaml
| Object_constructor      (* [parsers.constructor] is [Object] *)
| Object_prototype.       (* [parsers.__proto__], not a function *)

Definition parsers (ext : string) : option parser :=
  if String.eqb ext "ini" then Some ini
  else if String.eqb ext "conf" then Some ini
  else if String.eqb ext "json5" then Some json5
  else if String.eqb ext "json" then Some json
  else if String.eqb ext "yaml" then Some yaml
  else if String.eqb ext "yml" then Some yaml
  else if String.eqb ext "constructor" then Some Object_constructor
  else if String.eqb ext "__proto__" then Some Object_prototype
  else None.

(** [/^[\s\n]*\{/m.test( contents )]: under the flag [m] the [^] stands
    at the start of every line. *)
Fixpoint brace_after_spaces (s : string) : bool :=
  match s with
  | EmptyString => false
  | String c s' =>
      if Ascii.eqb c "{" then true
      else if Str.is_space c then brace_after_spaces s'
      else false
  end.

Definition is_line_terminator (c : ascii) : bool :=
  let n := nat_of_ascii c in (n =? 10)%nat || (n =? 13)%nat.

Fixpoint rx_brace_from (line_start : bool) (s : string) : bool :=
  match s with
  | EmptyString => false
  | String c s' =>
      (line_start && brace_after_spaces s) || rx_brace_from (is_line_terminator c) s'
  end.

Definition rx_brace_test (contents : string) : bool := rx_brace_from true contents.

(** The parser chosen for [filename] and its contents: the lines
    [extIndex = ...] to [_parser = ... ? parsers.json : parsers.ini] of
    [add_config_file] (and of [parse]). *)
Definition select_parser (filename contents : string) : parser :=
  let extIndex := Str.lastIndexOf "." filename in
  let _parser :=
    if (0 <? extIndex)%Z
    then parsers (Str.lc (Str.substr (Z.to_nat (extIndex + 1)) filename))
    else None in
  match _parser with
  | Some p => p
  | None => if rx_brace_test contents then json else ini
  end.

Section host.
Variable h : Host.

(** [_parser( contents )]; [None] when the call throws. *)
Definition run_parser (p : parser) (contents : string) : option value :=
  match p with
  | ini => ini_parse h contents
  | json5 => json5_parse h contents
  | json => JSON_parse h contents
  | yaml => yamljs_parse h contents
  | Object_constructor => Some (VNode KMap (own_props (VStr contents)))
  | Object_prototype => None
  end.

(** [parse( filename, contents )]: [null] when the parser throws. *)
Definition parse (filename contents : string) : value :=
  default VNull (run_parser (select_parser filename contents) contents).

(** [exists( fn )] *)
Definition exists_ (fn : string) : bool := statSync h fn.

(** [get_file( ...parts )]: the contents, [None] for [null]. *)
Definition get_file (parts : list string) : option string :=
  let pathParts := List.filter (fun p => negb (String.eqb p EmptyString)) parts in
  readFileSync h (path_join h pathParts).

(** [~this.configFiles.indexOf( fn )] *)
Definition loaded (fn : string) (c : Configuration) : bool :=
  bool_decide (fn ∈ configFiles c).

(** [_find( start, rel )], unfolded at most [fuel] times: the path found
    ([None] for [null]) and the instance afterwards. *)
Fixpoint _find (fuel : nat) (start rel : string) (c : Configuration)
  : result (option string * Configuration) :=
  match fuel with
  | O => Unfinished
  | S fuel' =>
      let file := path_join h [start; rel] in
      let c := push_diagnostic file c in
      if exists_ file && negb (loaded file c) then Ok (Some file, c)
      else if bool_decide (path_dirname h start ≠ start)
           then _find fuel' (path_dirname h start) rel c
           else Ok (None, c)
  end.

(** [find( file )] *)
Definition find (file : string) (c : Configuration)
  : result (option string * Configuration) :=
  _find (S (path_depth h (cwd h))) (cwd h) file c.

(** The loop [for ( let filename of filesToCheck )] of [add_config_file]. *)
Fixpoint add_config_loop (file : string) (findIt : bool) (filesToCheck : list string)
  (c : Configuration) : result Configuration :=
  match filesToCheck with
  | [] => Ok c
  | filename :: more =>
      '(filename, c) ← (if findIt then find filename c
                        else Ok (Some filename, push_diagnostic filename c));
      match filename with
      | None => add_config_loop file findIt more c
      | Some filename =>
          if String.eqb filename EmptyString
             || negb (exists_ filename)
             || loaded (if String.eqb (path_sep h) "\"
                        then Str.replace "\" "\\" filename else filename) c
          then add_config_loop file findIt more c
          else
            match get_file [filename] with
            | Some fileConfig =>
                if String.eqb fileConfig EmptyString
                then add_config_loop file findIt more c
                else
                  let parsed :=
                    default VNull
                      (run_parser (select_parser filename fileConfig) fileConfig) in
                  if truthy parsed
                  then Ok (push_config parsed file filename c)
                  else add_config_loop file findIt more c
            | None => add_config_loop file findIt more c
            end
      end
  end.

(** [add_config_file( file, findIt )] *)
Definition add_config_file (file : string) (findIt : bool) (c : Configuration)
  : result Configuration :=
  if loaded file c then Ok c
  else add_config_loop file findIt ((fun x => file +:+ x) <$> extensions (opts c)) c.

(** [list.forEach( fn => this.add_config_file( fn, findIt ) )] *)
Fixpoint add_each (findIt : bool) (files : list string) (c : Configuration)
  : result Configuration :=
  match files with
  | [] => Ok c
  | fn :: more => c ← add_config_file fn findIt c; add_each findIt more c
  end.

(** [add_files()] *)
Definition add_files (c : Configuration) : result Configuration :=
  let etc := "/etc" in
  let name := appName c in
  let home := homedir h in
  let dotName := "." +:+ name in
  let dotRc := "." +:+ name +:+ "rc" in
  let all := [[".config"; name; "config"]; [".config"; name]; [dotName; "config"];
              [dotName]; [dotRc]; [name]] in
  let inEtc := [[name; "config"]; [name +:+ "rc"]; [name]] in
  c ← (if negb (String.eqb (platform h) "win32")
       then add_each false ((fun parts => path_join h (etc :: parts)) <$> inEtc) c
       else Ok c);
  c ← (if negb (String.eqb home EmptyString)
       then add_each false (((fun parts => path_join h (home :: parts)) <$> all)
                            ++ ((fun parts => path_join h (cwd h :: parts)) <$> all)) c
       else Ok c);
  add_each true [dotRc; dotName; name] c.
End host.

(** ** The constructor *)

(** An option of [_config] that the program uses as a string. *)
Definition string_option (o : gmap key value) (name : string) (dflt : string)
  : result string :=
  match o !! KStr name with
  | None => Ok dflt
  | Some (VStr s) => Ok s
  | Some _ => Unmodelled
  end.

(** The elements of an array of strings. *)
Definition strings_of_array (len : N) (props : gmap key value) : result (list string) :=
  mapM (fun i => match props !! KNum (N.of_nat i) with
                 | Some (VStr s) => Ok s
                 | _ => Unmodelled
                 end) (seq 0 (N.to_nat len)).

(** [this.opts = Object.assign( {}, defaultOptions, ( typeof defaults ===
    'object' && defaults._config ) || {} )] and the line that makes
    [extensions] an array.  Options of another type than the program uses
    them at are not modelled. *)
Definition options_of (defaults : value) : result options :=
  _config ← match defaults with
            | VNull => Throw TypeError
            | VNode _ _ => js_get defaults (KStr "_config")
            | _ => Ok VUndefined
            end;
  let o := own_props (if truthy _config then _config else empty_object) in
  delimiter ← string_option o "delimiter" (delimiter defaultOptions);
  hyphenSubstitute ← string_option o "hyphenSubstitute" (hyphenSubstitute defaultOptions);
  extensions ← match o !! KStr "extensions" with
               | None => Ok (extensions defaultOptions)
               | Some (VNode (KArr len) props) => strings_of_array len props
               | Some (VStr s) =>
                   Ok (if String.eqb s EmptyString then extensions defaultOptions else [s])
               | Some v => if truthy v then Unmodelled else Ok (extensions defaultOptions)
               end;
  Ok {| delimiter := delimiter; hyphenSubstitute := hyphenSubstitute;
        extensions := extensions |}.

(** The key of the property that a string names: the number, for a
    canonical numeral. *)
Definition prop_key (name : string) : key :=
  match name with
  | String c rest =>
      if Str.all_digits name && (negb (Ascii.eqb c "0") || String.eqb rest EmptyString)
      then KNum (Str.to_number name) else KStr name
  | EmptyString => KStr name
  end.

(** [lc( appName.replace( '-', this.opts.hyphenSubstitute ) )] *)
Definition key_app_name (appName hyphenSubstitute : string) : string :=
  Str.lc (Str.replace "-" hyphenSubstitute appName).

(** [new Configuration( appName, defaults )], for an [appName] that is
    given: the walk up the module tree for a missing name is not
    modelled. *)
Definition new_Configuration (h : Host) (appName : string) (defaults : value)
  : result Configuration :=
  opts ← options_of defaults;
  if String.eqb appName EmptyString then Unmodelled
  else
    let keyAppName := key_app_name appName (hyphenSubstitute opts) in
    env ← parse_env keyAppName (process_env h) (delimiter opts);
    argv ← js_get (cli h) (prop_key keyAppName);
    let argv := if truthy argv then argv else empty_object in
    defaults ← match defaults with
               | VStr s => match json5_parse h s with
                           | Some d => Ok d
                           | None => Throw ParseError
                           end
               | _ => Ok defaults
               end;
    let this :=
      {| opts := opts; _diagnostics := []; appName := appName;
         keyAppName := keyAppName; env := env; argv := argv;
         defaults := defaults; overrides := empty_object;
         configList := []; configFiles := []; cookedConfigFiles := [];
         merged := VUndefined |} in
    this ← add_files h this;
    Ok (with_merged (merge this) this).

(** The states of an instance: what the constructor returns and what [set]
    and [get] make of a state. *)
Inductive reachable (h : Host) : Configuration → Prop :=
| reach_new appName defaults c :
    new_Configuration h appName defaults = Ok c → reachable h c
| reach_set key v c c' :
    reachable h c → set key v c = Ok c' → reachable h c'
| reach_set_throws key v c e :
    (* [this.merged = null] comes before the call that raises; [_getset]
       raises before it assigns anything *)
    reachable h c → set key v c = Throw e → reachable h (with_merged VNull c)
| reach_get c :
    reachable h c → reachable h (get c).2.

(** ** Notions that the properties are stated with *)

Definition is_node (v : value) : bool :=
  match v with VNode _ _ => true | _ => false end.

Definition is_array (v : value) : bool :=
  match v with VNode (KArr _) _ => true | _ => false end.







(** The value of key [x] in the first of [sources] that has it. *)
Definition lookup_first (x : key) (sources : list value) : option value :=
  head (omap (fun s => own_props s !! x) sources).


(** A mapping given by its properties. *)
Definition object (l : list (string * value)) : value :=
  VNode KMap (list_to_map ((fun p => (prop_key p.1, p.2)) <$> l)).

(** ** A POSIX host *)

(** [path.posix.dirname], as Node implements it: the trailing slashes and
    the last component are dropped, the slash before them too. *)
Definition is_slash (c : ascii) : bool := Ascii.eqb c "/".

Fixpoint drop_while (f : ascii → bool) (l : list ascii) : list ascii :=
  match l with
  | [] => []
  | c :: l' => if f c then drop_while f l' else l
  end.

Definition posix_dirname (path : string) : string :=
  match path with
  | EmptyString => "."
  | String c0 rest =>
      let hasRoot := is_slash c0 in
      let r := List.rev (Str.to_list rest) in
      match drop_while (fun c => negb (is_slash c)) (drop_while is_slash r) with
      | [] => if hasRoot then "/" else "."
      | _ :: before =>
          if hasRoot && (List.length before =? 0)%nat then "//"
          else String c0 (Str.of_list (List.rev before))
      end
  end.

Definition posix_depth (d : string) : nat :=
  if String.eqb d "/" || String.eqb d "." then 0%nat else S (String.length d).

(** [path.posix.join] on parts that are already normal (no [.] or [..]
    segment, no doubled slash): the parts that are not empty, with a slash
    between two of them unless the first ends with one. *)
Fixpoint posix_join_from (acc : string) (parts : list string) : string :=
  match parts with
  | [] => acc
  | p :: more =>
      if String.eqb p EmptyString then posix_join_from acc more
      else if String.eqb acc EmptyString then posix_join_from p more
      else if Str.starts_with "/" (Str.rev acc) then posix_join_from (acc +:+ p) more
      else posix_join_from (acc +:+ "/" +:+ p) more
  end.

Definition posix_join (parts : list string) : string :=
  let joined := posix_join_from EmptyString parts in
  if String.eqb joined EmptyString then "." else joined.

Global Instance parser_eq_dec : EqDecision parser.
Proof. solve_decision. Defined.

(** Parsers that know the contents listed in a table. *)
Definition known (table : list (parser * string * value)) (p : parser) (contents : string)
  : option value :=
  snd <$> List.find (fun e => bool_decide (e.1 = (p, contents))) table.

(** A host on Linux, with the files [files] (path and contents) and
    parsers that know the contents in [table]. *)
Definition posix_host (home cwd_ : string) (env_ : list (string * value)) (cli_ : value)
  (files : list (string * string)) (table : list (parser * string * value)) : Host :=
  let files : gmap string string := list_to_map files in
  {| platform := "linux";
     homedir := home;
     cwd := cwd_;
     process_env := env_;
     cli := cli_;
     statSync := fun fn => bool_decide (is_Some (files !! fn));
     readFileSync := fun fn => files !! fn;
     path_join := posix_join;
     path_dirname := posix_dirname;
     path_sep := "/";
     path_depth := posix_depth;
     ini_parse := known table ini;
     json5_parse := known table json5;
     JSON_parse := known table json;
     yamljs_parse := known table yaml |}.

(** ** The upward search, as the properties speak of it *)

(** The [n]-th directory above [start] and the path probed there. *)
Definition ancestor (h : Host) (start : string) (n : nat) : string :=
  Nat.iter n (path_dirname h) start.

Definition candidate (h : Host) (start rel : string) (n : nat) : string :=
  path_join h [ancestor h start n; rel].

(** [exists( file ) && !~this.configFiles.indexOf( file )] *)
Definition matches (h : Host) (c : Configuration) (file : string) : bool :=
  exists_ h file && negb (loaded file c).

(** ** Example hosts and instances *)

Definition LF : string := String (ascii_of_nat 10) EmptyString.

(** What [minimist] returns for [--app.x=4]. *)
Definition example_cli : value :=
  object [("_", empty_array); ("app", object [("x", VNum 4)])].

(** A host where every kind of source sets [x]: the file [/work/.apprc]
    (an INI file), the variable [APP_X] and the option [--app.x]. *)
Definition precedence_host : Host :=
  posix_host "/home/u" "/work"
    [("PATH", VStr "/usr/bin"); ("APP_X", VStr "3")]
    example_cli
    [("/work/.apprc", "x=2")]
    [(ini, "x=2", object [("x", VStr "2")])].

(** A host with the variable [APP_A_Q=2] and no file. *)
Definition shallow_host : Host :=
  posix_host "/home/u" "/work" [("APP_A_Q", VStr "2")] (object [("_", empty_array)]) [] [].

(** A host with the one file [/work/.apprc.json5]. *)
Definition one_file_host : Host :=
  posix_host "/home/u" "/work" [] (object [("_", empty_array)])
    [("/work/.apprc.json5", "{x:2}")]
    [(json5, "{x:2}", object [("x", VNum 2)])].

(** An instance with nothing loaded. *)
Definition blank : Configuration :=
  {| opts := defaultOptions; _diagnostics := []; appName := "app"; keyAppName := "app";
     env := empty_object; argv := empty_object; defaults := empty_object;
     overrides := empty_object; configList := []; configFiles := [];
     cookedConfigFiles := []; merged := VUndefined |}.


(** ** Further notions: reads, the loader's ledger, the namespace *)

(** The value that a path of data properties leads to, when every segment
    is there: each node on the way a container that holds the next key
    with a value other than [undefined]. *)
Fixpoint resolves (ref : value) (keys : list key) : option value :=
  match keys with
  | [] => Some ref
  | key :: rest =>
      match ref with
      | VNode k props =>
          if is_length k key then None
          else match props !! key with
               | Some child => if is_undefined child then None else resolves child rest
               | None => None
               end
      | _ => None
      end
  end.

(** [c] does not occur in [s]. *)
Fixpoint lacks (c : ascii) (s : string) : bool :=
  match s with
  | EmptyString => true
  | String a s' => negb (Ascii.eqb a c) && lacks c s'
  end.

(** The variables that [parse_env] reads: strings whose lower-cased name
    is the namespace or starts with the namespace and the delimiter. *)
Definition in_namespace (keyname delim : string) (entry : string * value) : bool :=
  match entry.2 with
  | VStr _ =>
      String.eqb (Str.lc entry.1) keyname
      || Str.starts_with (keyname +:+ delim) (Str.lc entry.1)
  | _ => false
  end.

(** An instance with another ledger of probes. *)
Definition with_diagnostics (d : list string) (c : Configuration) : Configuration :=
  {| opts := opts c; _diagnostics := d; appName := appName c;
     keyAppName := keyAppName c; env := env c; argv := argv c;
     defaults := defaults c; overrides := overrides c;
     configList := configList c; configFiles := configFiles c;
     cookedConfigFiles := cookedConfigFiles c; merged := merged c |}.

(** What discovery leaves alone: the options, the names, the trees of the
    other sources and the cache. *)
Definition same_sources (c c' : Configuration) : Prop :=
  opts c' = opts c ∧ appName c' = appName c ∧ keyAppName c' = keyAppName c
  ∧ env c' = env c ∧ argv c' = argv c ∧ defaults c' = defaults c
  ∧ overrides c' = overrides c ∧ merged c' = merged c.

(** The file lists of an instance go together and hold what was loaded:
    one tree, one name asked for and one path per file, every path that of
    an existing file, every tree truthy. *)
Definition loader_ok (h : Host) (c : Configuration) : Prop :=
  List.length (configFiles c) = List.length (configList c)
  ∧ List.length (cookedConfigFiles c) = List.length (configList c)
  ∧ Forall (fun fn => exists_ h fn = true) (cookedConfigFiles c)
  ∧ Forall (fun t => truthy t = true) (configList c).


(** What one call of [add_config_file] can have done to [c]: recorded
    probes, and then loaded nothing, or the one file [filename], which
    exists and has contents and a truthy tree that the parser selected
    for it returns; a direct probe loads the name asked for with one of
    the extensions. *)
Definition loaded_one (h : Host) (file : string) (findIt : bool) (c c' : Configuration)
  : Prop :=
  ∃ probes,
    let c1 := with_diagnostics (_diagnostics c ++ probes) c in
    c' = c1
    ∨ ∃ parsed filename contents,
        c' = push_config parsed file filename c1
        ∧ truthy parsed = true
        ∧ exists_ h filename = true
        ∧ get_file h [filename] = Some contents
        ∧ contents ≠ EmptyString
        ∧ run_parser h (select_parser filename contents) contents = Some parsed
        ∧ (findIt = false → ∃ x, x ∈ extensions (opts c) ∧ filename = file +:+ x).

(** * Properties *)

(** ** The string built-ins on examples *)

Example split_dots : Str.split "." "a.b.c" = ["a"; "b"; "c"].
Proof. reflexivity. Qed.

Example split_trailing : Str.split "." "a." = ["a"; EmptyString].
Proof. reflexivity. Qed.

Example trim_both : Str.trim "  x y  " = "x y".
Proof. reflexivity. Qed.

Example replace_first_only : Str.replace "-" "_" "a-b-c" = "a_b-c".
Proof. reflexivity. Qed.

Example replace_all_every : Str.replace_all "_" "." "a_b_c" = "a.b.c".
Proof. reflexivity. Qed.

(** ** The path accessor *)

(** Running the monad of [result] one step. *)
Ltac run := cbn [mbind result_bind default from_option id is_undefined head].

Section accessor.
Implicit Types (ref obj v child : value) (keys rest : list key) (key : key).

Lemma bind_Ok {A B} (m : result A) (f : A → result B) b :
  m ≫= f = Ok b → ∃ a, m = Ok a ∧ f a = Ok b.
Proof. destruct m; simpl; intros; eauto; discriminate. Qed.


Lemma js_put_node ref key v ref' :
  js_put ref key v = Ok ref' → is_node ref = true ∧ is_node ref' = true.
Proof.
  destruct ref as [| | | | |k props]; try discriminate. simpl.
  destruct (is_length k key).
  - destruct v; try discriminate. destruct (_ && _); [|discriminate]. by intros [= <-].
  - intros [= <-]. by destruct k, key.
Qed.

(** One turn of the loop, as [walk] unfolds it. *)
Lemma walk_cons value_ ref key rest last ref' :
  walk value_ ref (key :: rest) = Ok (last, ref') →
  ∃ cur ref1 ref2 child child',
    js_get ref key = Ok cur ∧
    (if is_undefined cur then js_put ref key (fresh (head rest)) else Ok ref) = Ok ref1 ∧
    match rest, value_ with [], Some v => js_put ref1 key v | _, _ => Ok ref1 end = Ok ref2 ∧
    js_get ref2 key = Ok child ∧
    walk value_ child rest = Ok (last, child') ∧
    ref' = write_back ref2 key child'.
Proof.
  simpl. intros H.
  apply bind_Ok in H as (cur & ? & H).
  apply bind_Ok in H as (ref1 & ? & H).
  apply bind_Ok in H as (ref2 & ? & H).
  apply bind_Ok in H as (child & ? & H).
  apply bind_Ok in H as ([l c'] & ? & H).
  injection H as <- <-. eauto 12.
Qed.






#[local] Arguments js_get : simpl never.
#[local] Arguments js_put : simpl never.







Lemma walk_step value_ ref key rest :
  walk value_ ref (key :: rest) =
    cur ← js_get ref key;
    ref1 ← (if is_undefined cur then js_put ref key (fresh (head rest)) else Ok ref);
    ref2 ← (match rest, value_ with
            | [], Some v => js_put ref1 key v
            | _, _ => Ok ref1
            end);
    child ← js_get ref2 key;
    '(last, child') ← walk value_ child rest;
    Ok (last, write_back ref2 key child').
Proof. reflexivity. Qed.


Lemma split_nonempty sep s : Str.split sep s ≠ [].
Proof. induction s as [|c s IH]; simpl; [done|]. by repeat case_match. Qed.

Lemma keys_of_nonempty accessor : keys_of accessor ≠ [].
Proof.
  unfold keys_of. pose proof (split_nonempty "." accessor).
  by destruct (Str.split "." accessor).
Qed.

Lemma eqb_empty_false s : s ≠ EmptyString → String.eqb s EmptyString = false.
Proof. by destruct s. Qed.

(** The two forms of [_getset] on a path that is not empty. *)
Lemma _getset_walk obj accessor value_ :
  accessor ≠ EmptyString →
  _getset obj accessor value_ =
    '(ref, obj1) ← walk value_ (if truthy obj then obj else empty_object) (keys_of accessor);
    Ok (match value_ with Some _ => obj1 | None => ref end,
        if truthy obj then obj1 else obj).
Proof. intros H. unfold _getset. by rewrite (eqb_empty_false _ H). Qed.

Lemma truthy_node v : is_node v = true → truthy v = true.
Proof. by destruct v. Qed.





(** *** Walks through containers *)

Lemma js_get_data k props key :
  is_length k key = false →
  js_get (VNode k props) key = Ok (default VUndefined (props !! key)).
Proof. intros H. unfold js_get. rewrite H. by destruct k. Qed.

Lemma js_put_data k props key x :
  is_length k key = false → js_put (VNode k props) key x = Ok (plant k props key x).
Proof. intros H. unfold js_put. by rewrite H. Qed.

Lemma plant_shape k props key x :
  ∃ k', plant k props key x = VNode k' (<[key := x]> props)
        ∧ (∀ key', is_length k' key' = is_length k key')
        ∧ is_array (VNode k' ∅) = is_array (VNode k ∅).
Proof. destruct k, key; simpl; eauto. Qed.












(** *** Reads that grow the tree *)





End accessor.

(** ** The merge *)

Section merge_facts.
Implicit Types (c : Configuration) (x k : key) (s : value) (sources : list value).

Lemma lookup_first_cons x s sources :
  lookup_first x (s :: sources) =
    match own_props s !! x with
    | Some v => Some v
    | None => lookup_first x sources
    end.
Proof. unfold lookup_first. simpl. by destruct (own_props s !! x). Qed.


(** The fold of [Object.assign]: a key has the value of the last source
    that has it. *)
Lemma Object_assign_lookup sources x :
  own_props (Object_assign sources) !! x = lookup_first x (rev sources).
Proof.
  unfold Object_assign. simpl.
  induction sources as [|s sources IH] using rev_ind; [done|].
  rewrite foldl_app, rev_app_distr. simpl. rewrite lookup_first_cons.
  unfold assign at 1. rewrite lookup_union, IH.
  by destruct (own_props s !! x), (lookup_first x (rev sources)).
Qed.




End merge_facts.

(** ** The upward search *)

Section search.
Variable h : Host.
Implicit Types (c : Configuration) (start rel file : string).

Lemma ancestor_succ start n : ancestor h start (S n) = ancestor h (path_dirname h start) n.
Proof. unfold ancestor. by rewrite Nat.iter_succ_r. Qed.

Lemma candidate_above start rel n :
  candidate h (path_dirname h start) rel n = candidate h start rel (S n).
Proof. unfold candidate. by rewrite ancestor_succ. Qed.

Lemma candidates_above start rel n :
  candidate h (path_dirname h start) rel <$> seq 0 n = candidate h start rel <$> seq 1 n.
Proof.
  rewrite <-(fmap_S_seq 0 n), <-list_fmap_compose. apply list_fmap_ext.
  intros _ i _. apply candidate_above.
Qed.

Lemma _find_step fuel start rel c :
  _find h (S fuel) start rel c =
    let file := candidate h start rel 0 in
    let c1 := push_diagnostic file c in
    if matches h c file then Ok (Some file, c1)
    else if bool_decide (path_dirname h start ≠ start)
         then _find h fuel (path_dirname h start) rel c1
         else Ok (None, c1).
Proof. reflexivity. Qed.

(** The search returns within any bound above the depth of [start]. *)
Lemma _find_returns start rel c fuel :
  well_rooted h → (path_depth h start < fuel)%nat →
  ∃ found c', _find h fuel start rel c = Ok (found, c').
Proof.
  intros Hwr. revert start c. induction fuel as [|fuel IH]; intros start c Hd; [lia|].
  rewrite _find_step. cbn zeta. destruct (matches h c _); [by eexists _, _|].
  case_bool_decide as Hroot; [|by eexists _, _].
  apply IH. specialize (Hwr start Hroot). lia.
Qed.

(** [find] never runs out of its bound. *)
Corollary find_returns file c :
  well_rooted h → ∃ found c', find h file c = Ok (found, c').
Proof. intros Hwr. apply _find_returns; [done|lia]. Qed.

(** C6: where every directory that is not its own parent has a parent
    nearer to the root, the search from [start] ends, with any bound above
    the depth of [start]: it probes [start] and the directories above it in
    turn, records each probe, and returns the first path that exists and is
    not loaded, or [null] from the directory that is its own parent. *)
Theorem _find_terminates start rel c fuel :
  well_rooted h → (path_depth h start < fuel)%nat →
  ∃ m found c',
    _find h fuel start rel c = Ok (found, c')
    ∧ _diagnostics c' = (_diagnostics c ++ (candidate h start rel <$> seq 0 (S m)))%list
    ∧ configFiles c' = configFiles c
    ∧ (∀ i, (i < m)%nat → matches h c (candidate h start rel i) = false
                           ∧ ancestor h start (S i) ≠ ancestor h start i)
    ∧ match found with
      | Some file => file = candidate h start rel m ∧ matches h c file = true
      | None => matches h c (candidate h start rel m) = false
                ∧ path_dirname h (ancestor h start m) = ancestor h start m
      end.
Proof.
  intros Hwr. revert start c. induction fuel as [|fuel IH]; intros start c Hd; [lia|].
  rewrite _find_step. cbn zeta.
  destruct (matches h c (candidate h start rel 0)) eqn:Hm.
  - exists 0%nat, (Some (candidate h start rel 0)), (push_diagnostic (candidate h start rel 0) c).
    repeat split; try done; lia.
  - case_bool_decide as Hroot.
    + specialize (Hwr start Hroot).
      destruct (IH (path_dirname h start) (push_diagnostic (candidate h start rel 0) c))
        as (m & found & c' & -> & Hdiag & Hfiles & Hbefore & Hfound); [lia|].
      exists (S m), found, c'. split; [done|]. split.
      { rewrite Hdiag. cbn [_diagnostics push_diagnostic]. rewrite <-app_assoc.
        f_equal. rewrite candidates_above. done. }
      split; [done|]. split.
      { intros [|i] Hi; [done|].
        rewrite <-candidate_above, (ancestor_succ start (S i)), (ancestor_succ start i).
        refine (Hbefore i _). lia. }
      rewrite <-candidate_above, (ancestor_succ start m). exact Hfound.
    + exists 0%nat, None, (push_diagnostic (candidate h start rel 0) c).
      repeat split; try done; lia.
Qed.
End search.

(** ** The POSIX host is well rooted *)

Lemma length_of_list l : String.length (Str.of_list l) = List.length l.
Proof. induction l as [|c l IH]; simpl; [done|]. by rewrite IH. Qed.

Lemma length_to_list s : List.length (Str.to_list s) = String.length s.
Proof. induction s as [|c s IH]; simpl; [done|]. by rewrite IH. Qed.

Lemma drop_while_length f l : (List.length (drop_while f l) ≤ List.length l)%nat.
Proof. induction l as [|c l IH]; simpl; [done|]. destruct (f c); simpl; lia. Qed.

Lemma drop_while_head f l c l' : drop_while f l = c :: l' → f c = false.
Proof.
  induction l as [|a l IH]; simpl; [done|]. destruct (f a) eqn:Hf; [done|].
  by intros [= <- _].
Qed.

(** The last component of a path takes at least one character and the
    slash before it one more. *)
Lemma last_component_length r c before :
  drop_while (fun c => negb (is_slash c)) (drop_while is_slash r) = c :: before →
  (List.length before + 2 ≤ List.length r)%nat.
Proof.
  intros H. pose proof (drop_while_length is_slash r) as Hle.
  destruct (drop_while is_slash r) as [|a r1] eqn:Hr1; [done|].
  apply drop_while_head in Hr1 as Ha. simpl in H. rewrite Ha in H. simpl in H.
  pose proof (drop_while_length (fun c => negb (is_slash c)) r1) as Hle'.
  rewrite H in Hle'. simpl in *. lia.
Qed.

Lemma posix_depth_le d : (posix_depth d ≤ S (String.length d))%nat.
Proof. unfold posix_depth. destruct (_ || _); lia. Qed.

Lemma posix_depth_long d : (2 ≤ String.length d)%nat → posix_depth d = S (String.length d).
Proof. by destruct d as [|a [|b d]]; simpl; [lia|lia|]; intros _; destruct a as [[] [] [] [] [] [] [] []]. Qed.

Lemma posix_dirname_nearer d :
  posix_dirname d ≠ d → (posix_depth (posix_dirname d) < posix_depth d)%nat.
Proof.
  destruct d as [|c0 rest]; [intros _; vm_compute; lia|]. unfold posix_dirname.
  destruct (drop_while _ _) as [|c before] eqn:Hdrop.
  - (* no directory part *)
    intros Hne. destruct (is_slash c0) eqn:Hroot.
    + apply Ascii.eqb_eq in Hroot as ->. destruct rest; [done|].
      rewrite (posix_depth_long (String _ (String _ _))) by (simpl; lia).
      change (posix_depth "/") with 0%nat. lia.
    + destruct rest;
        [|rewrite (posix_depth_long (String _ (String _ _))) by (simpl; lia);
          change (posix_depth ".") with 0%nat; lia].
      change (posix_depth ".") with 0%nat. unfold posix_depth.
      destruct (String.eqb_spec (String c0 EmptyString) "/") as [E|_].
      { injection E as ->. done. }
      destruct (String.eqb_spec (String c0 EmptyString) ".") as [E|_]; [done|].
      simpl. lia.
  - intros _. apply last_component_length in Hdrop.
    rewrite length_rev, length_to_list in Hdrop.
    rewrite (posix_depth_long (String c0 rest)) by (simpl; lia).
    destruct (is_slash c0 && _);
      [change (posix_depth "//") with 3%nat; simpl String.length; lia|].
    pose proof (posix_depth_le (String c0 (Str.of_list (rev before)))) as Hle.
    simpl in *. rewrite length_of_list, length_rev in Hle. lia.
Qed.

Lemma posix_well_rooted home cwd_ env_ cli_ files parses :
  well_rooted (posix_host home cwd_ env_ cli_ files parses).
Proof. intros d. apply posix_dirname_nearer. Qed.

(** ** Witnesses on the example hosts *)



Lemma _find_terminates_witness :
  ∃ m found c',
    _find one_file_host 7 "/work" ".apprc" blank = Ok (found, c')
    ∧ _diagnostics c'
      = (_diagnostics blank ++ (candidate one_file_host "/work" ".apprc" <$> seq 0 (S m)))%list
    ∧ configFiles c' = configFiles blank
    ∧ (∀ i, (i < m)%nat →
            matches one_file_host blank (candidate one_file_host "/work" ".apprc" i) = false
            ∧ ancestor one_file_host "/work" (S i) ≠ ancestor one_file_host "/work" i)
    ∧ match found with
      | Some file => file = candidate one_file_host "/work" ".apprc" m
                     ∧ matches one_file_host blank file = true
      | None => matches one_file_host blank (candidate one_file_host "/work" ".apprc" m) = false
                ∧ path_dirname one_file_host (ancestor one_file_host "/work" m)
                  = ancestor one_file_host "/work" m
      end.
Proof.
  apply (_find_terminates one_file_host "/work" ".apprc" blank 7).
  - apply posix_well_rooted.
  - vm_compute. lia.
Defined.

(** The search of the witness: two probes, then [null] from the root. *)
Example find_reaches_root :
  _find one_file_host 7 "/work" ".apprc" blank
  = Ok (None, push_diagnostic "/.apprc" (push_diagnostic "/work/.apprc" blank)).
Proof. vm_compute. reflexivity. Qed.

(** ** Where the code departs from its specification *)


(** With the empty extension the record and the file are the same path,
    and the search skips it. *)
Example file_without_extension_loaded_once :
  ∃ c,
    new_Configuration precedence_host "app" empty_object = Ok c
    ∧ cookedConfigFiles c = ["/work/.apprc"].
Proof. eexists. split; [vm_compute; reflexivity|]. vm_compute. reflexivity. Qed.

(** C7 fails on the code: [value.split( '=' )] cuts the value at every
    [=] and the destructuring keeps two parts, so the value stops at its
    first [=]. *)
Theorem parse_env_cuts_value :
  parse_env "app" [("APP", VStr "url=a=b")] "_" = Ok (object [("url", VStr "a")]).
Proof. vm_compute. reflexivity. Qed.

(** The example of the specification, where the value has no [=]. *)
Example parse_env_single_value :
  parse_env "app" [("APP", VStr "demo.host=1.2.3.4")] "_"
  = Ok (object [("demo", object [("host", VStr "1.2.3.4")])]).
Proof. vm_compute. reflexivity. Qed.

(** The other form keeps the whole value. *)
Example parse_env_prefix_keeps_value :
  parse_env "app" [("APP_URL", VStr "a=b")] "_" = Ok (object [("url", VStr "a=b")]).
Proof. vm_compute. reflexivity. Qed.

Example parse_env_coerces :
  parse_env "app" [("APP_COUNT", VStr "42"); ("APP_FLAG", VStr "true");
                   ("APP_NAME", VStr "bob"); ("HOME", VStr "/home/u")] "_"
  = Ok (object [("count", VNum 42); ("flag", VBool true); ("name", VStr "bob")]).
Proof. vm_compute. reflexivity. Qed.

(** C8 fails on the code: [replace] with a string pattern replaces the
    first hyphen only. *)
Theorem key_app_name_first_hyphen :
  key_app_name "my-cool-app" "_" = "my_cool-app".
Proof. reflexivity. Qed.

(** The key is fixed: [set] and [get] leave it as it is. *)
Lemma keyAppName_fixed key v c c' :
  set key v c = Ok c' → keyAppName c' = keyAppName c ∧ keyAppName (get c).2 = keyAppName c.
Proof.
  intros Hset. unfold set in Hset. apply bind_Ok in Hset as ([r o] & _ & [= <-]).
  split; [done|]. unfold get. by destruct (truthy (merged c)).
Qed.

(** C9 fails on the code: under the flag [m] a brace that opens any line
    makes the contents JSON. *)
Theorem select_parser_any_line :
  select_parser "/work/.apprc" ("a=1" +:+ LF +:+ "{b}") = json.
Proof. reflexivity. Qed.

Example select_parser_leading_brace :
  select_parser "/work/.apprc" ("  " +:+ LF +:+ "{x:2}") = json
  ∧ select_parser "/work/.apprc" "a=1" = ini
  ∧ select_parser "/work/app.yml" "{x:2}" = yaml.
Proof. repeat split. Qed.

(** ** Examples *)

Example read_grows_example :
  _getset (object [("a", empty_object)]) "a.0.c" None
  = Ok (empty_object,
        object [("a", object [("0", object [("c", empty_object)])])]).
Proof. vm_compute. reflexivity. Qed.

Example write_makes_array :
  _getset empty_object "a.1" (Some (VStr "x"))
  = Ok (object [("a", VNode (KArr 2) {[ KNum 1 := VStr "x" ]})],
        object [("a", VNode (KArr 2) {[ KNum 1 := VStr "x" ]})]).
Proof. vm_compute. reflexivity. Qed.

Example write_on_array_takes_name :
  _getset (object [("a", empty_array)]) "a.b" (Some (VNum 1))
  = Ok (object [("a", VNode (KArr 0) {[ KStr "b" := VNum 1 ]})],
        object [("a", VNode (KArr 0) {[ KStr "b" := VNum 1 ]})]).
Proof. vm_compute. reflexivity. Qed.

Example write_empty_path :
  _getset empty_object EmptyString (Some (VNum 1)) = Ok (VNum 1, empty_object).
Proof. reflexivity. Qed.

(** * Further properties *)

(** ** More on the path accessor *)

Section accessor_more.
Implicit Types (ref obj v child : value) (keys rest : list key) (key : key).
#[local] Arguments js_get : simpl never.
#[local] Arguments js_put : simpl never.

Lemma write_back_same k props key child :
  props !! key = Some child → write_back (VNode k props) key child = VNode k props.
Proof. intros H. destruct child; try done. simpl. by rewrite insert_id. Qed.

Lemma walk_resolves ref keys v :
  resolves ref keys = Some v → walk None ref keys = Ok (v, ref).
Proof.
  revert ref. induction keys as [|key rest IH]; intros ref; [by intros [= <-]|].
  destruct ref as [| | | | |k props]; try done. simpl resolves.
  destruct (is_length k key) eqn:Hlen; [done|].
  destruct (props !! key) as [child|] eqn:Hk; [|done].
  destruct (is_undefined child) eqn:Hu; [done|]. intros Hr.
  rewrite walk_step, (js_get_data _ _ _ Hlen), Hk. run. rewrite Hu. run.
  replace (match rest with [] | _ => _ end) with (Ok (A := value) (VNode k props))
    by (by destruct rest).
  run. rewrite (js_get_data _ _ _ Hlen), Hk. run. rewrite (IH _ Hr). run.
  by rewrite write_back_same.
Qed.

(** X1: reading a path whose every segment is there returns the value
    stored at its end and leaves the tree as it is. *)
Theorem read_present_is_pure obj accessor v :
  accessor ≠ EmptyString →
  resolves obj (keys_of accessor) = Some v →
  _getset obj accessor None = Ok (v, obj).
Proof.
  intros Ha Hr. rewrite _getset_walk by done.
  assert (is_node obj = true) as Hn.
  { pose proof (keys_of_nonempty accessor). destruct (keys_of accessor); [done|].
    by destruct obj. }
  rewrite (truthy_node _ Hn), (walk_resolves _ _ _ Hr). done.
Qed.

Lemma read_present_is_pure_witness :
  _getset (object [("a", object [("b", VNum 7)])]) "a.b" None
  = Ok (VNum 7, object [("a", object [("b", VNum 7)])]).
Proof.
  apply (read_present_is_pure (object [("a", object [("b", VNum 7)])]) "a.b" (VNum 7)).
  - discriminate.
  - vm_compute. reflexivity.
Defined.

Lemma js_put_other ref key x k props k' props' key' :
  ref = VNode k props → is_length k key = false →
  js_put ref key x = Ok (VNode k' props') → key' ≠ key →
  props' !! key' = props !! key' ∧ (∀ q, is_length k' q = is_length k q).
Proof.
  intros -> Hlen. rewrite (js_put_data _ _ _ _ Hlen).
  destruct (plant_shape k props key x) as (k1 & -> & Hl & _). intros [= <- <-] Hne.
  split; [by rewrite lookup_insert_ne|done].
Qed.

Lemma walk_keeps_siblings k props keys value_ last k' props' key key' :
  head keys = Some key →
  is_length k key = false →
  walk value_ (VNode k props) keys = Ok (last, VNode k' props') →
  key' ≠ key →
  props' !! key' = props !! key'.
Proof.
  intros Hhead Hlen Hw Hne.
  destruct keys as [|key0 rest]; [done|]. injection Hhead as ->.
  apply walk_cons in Hw as (cur & ref1 & ref2 & child & child' & _ & H1 & H2 & _ & _ & Hwb).
  assert (∃ k1 p1, ref1 = VNode k1 p1 ∧ p1 !! key' = props !! key'
                   ∧ ∀ q, is_length k1 q = is_length k q) as (k1 & p1 & -> & Hp1 & Hl1).
  { destruct (is_undefined cur).
    - pose proof H1 as Hn. apply js_put_node in Hn as [_ Hn].
      destruct ref1 as [| | | | |k1 p1]; try done.
      destruct (js_put_other _ _ _ _ _ _ _ key' eq_refl Hlen H1 Hne). eauto.
    - injection H1 as <-. eauto. }
  assert (∃ k2 p2, ref2 = VNode k2 p2 ∧ p2 !! key' = props !! key')
    as (k2 & p2 & -> & Hp2).
  { destruct rest, value_; try (injection H2 as <-; eauto).
    pose proof H2 as Hn. apply js_put_node in Hn as [_ Hn].
    destruct ref2 as [| | | | |k2 p2]; try done.
    assert (is_length k1 key = false) as Hlen1 by (by rewrite Hl1).
    destruct (js_put_other _ _ _ _ _ _ _ key' eq_refl Hlen1 H2 Hne) as [Hq _].
    eexists _, _. split; [done|]. by rewrite Hq. }
  destruct child'; simpl in Hwb; injection Hwb as _ ->; try done.
  by rewrite lookup_insert_ne.
Qed.

(** X2: an access, whether it reads or writes, touches the root only at
    the first key of its path: every other property of the root is after
    it what it was before. *)
Theorem access_keeps_siblings k props accessor value_ r k' props' key key' :
  accessor ≠ EmptyString →
  head (keys_of accessor) = Some key →
  is_length k key = false →
  _getset (VNode k props) accessor value_ = Ok (r, VNode k' props') →
  key' ≠ key →
  props' !! key' = props !! key'.
Proof.
  intros Ha Hhead Hlen. rewrite _getset_walk by done. cbn [truthy].
  intros Hw Hne. apply bind_Ok in Hw as ([last obj1] & Hw & [= _ ->]).
  by apply (walk_keeps_siblings k props (keys_of accessor) value_ last k' props' key).
Qed.

Lemma access_keeps_siblings_witness :
  own_props (object [("a", object [("c", VNum 7)]); ("b", VNum 2)]) !! KStr "b"
  = own_props (object [("a", empty_object); ("b", VNum 2)]) !! KStr "b".
Proof.
  apply (access_keeps_siblings KMap _ "a.c" (Some (VNum 7))
           (object [("a", object [("c", VNum 7)]); ("b", VNum 2)]) KMap _ (KStr "a")).
  - discriminate.
  - reflexivity.
  - reflexivity.
  - vm_compute. reflexivity.
  - discriminate.
Defined.
End accessor_more.

(** ** More on the engine *)

Section engine_more.
Implicit Types (c : Configuration) (x k : key) (s : value) (sources : list value).
#[local] Arguments js_get : simpl never.
#[local] Arguments js_put : simpl never.

(** X3: a second [get()] returns the tree of the first and changes
    nothing: the first one has filled the cache, whatever the cache held
    before. *)
Theorem get_twice c : get (get c).2 = ((get c).1, (get c).2).
Proof.
  unfold get. destruct (truthy (merged c)) eqn:Ht; simpl; [by rewrite Ht|done].
Qed.



(** A walk from a mapping leaves a mapping. *)
Lemma walk_keeps_mapping value_ props keys last ref' :
  walk value_ (VNode KMap props) keys = Ok (last, ref') → ∃ props', ref' = VNode KMap props'.
Proof.
  destruct keys as [|key rest]; [intros [= _ <-]; eauto|].
  intros (cur & ref1 & ref2 & child & child' & _ & H1 & H2 & _ & _ & ->)%walk_cons.
  assert (∃ p1, ref1 = VNode KMap p1) as [p1 ->].
  { destruct (is_undefined cur); [|injection H1 as <-; eauto].
    rewrite js_put_data in H1 by done. injection H1 as <-. simpl. eauto. }
  assert (∃ p2, ref2 = VNode KMap p2) as [p2 ->].
  { destruct rest, value_;
      first [ injection H2 as <-; by eauto
            | rewrite js_put_data in H2 by done; injection H2 as <-; simpl; by eauto ]. }
  destruct child'; simpl; eauto.
Qed.

Lemma _getset_keeps_mapping props accessor value_ r o :
  _getset (VNode KMap props) accessor value_ = Ok (r, o) → ∃ props', o = VNode KMap props'.
Proof.
  unfold _getset. destruct (String.eqb accessor EmptyString); [intros [= _ <-]; eauto|].
  cbn [truthy]. intros Hw. apply bind_Ok in Hw as ([last obj1] & Hw & [= _ <-]).
  by apply walk_keeps_mapping in Hw.
Qed.

End engine_more.

(** ** The loader *)

Section loader.
Variable h : Host.
Implicit Types (c : Configuration) (file filename start rel : string).

Lemma push_diagnostic_ledger fn c :
  push_diagnostic fn c = with_diagnostics (_diagnostics c ++ [fn]) c.
Proof. done. Qed.

Lemma with_diagnostics_twice d d' c :
  with_diagnostics d (with_diagnostics d' c) = with_diagnostics d c.
Proof. done. Qed.

Lemma with_diagnostics_same c : with_diagnostics (_diagnostics c ++ []) c = c.
Proof. rewrite app_nil_r. by destruct c. Qed.

(** The search changes the ledger of probes only, and what it finds
    exists and is not recorded as loaded. *)
Lemma _find_ledger fuel start rel c found c' :
  _find h fuel start rel c = Ok (found, c') →
  ∃ probes, c' = with_diagnostics (_diagnostics c ++ probes) c
            ∧ match found with
              | Some fn => exists_ h fn = true ∧ loaded fn c = false
              | None => True
              end.
Proof.
  revert start c. induction fuel as [|fuel IH]; intros start c; [done|].
  rewrite _find_step. cbn zeta. unfold matches.
  destruct (exists_ h _ && negb (loaded _ c)) eqn:Hm.
  - intros [= <- <-]. eexists. split; [apply push_diagnostic_ledger|].
    apply andb_prop in Hm as [? Hl]. split; [done|]. by destruct (loaded _ c).
  - case_bool_decide.
    + intros (probes & -> & Hf)%IH. exists (candidate h start rel 0 :: probes).
      split; [|exact Hf].
      rewrite push_diagnostic_ledger, with_diagnostics_twice. cbn [_diagnostics with_diagnostics].
      by rewrite <-app_assoc.
    + intros [= <- <-]. eexists. split; [apply push_diagnostic_ledger|done].
Qed.

Lemma add_config_loop_spec file findIt files c c' :
  add_config_loop h file findIt files c = Ok c' →
  ∃ probes,
    let c1 := with_diagnostics (_diagnostics c ++ probes) c in
    c' = c1
    ∨ ∃ parsed filename contents,
        c' = push_config parsed file filename c1
        ∧ truthy parsed = true
        ∧ exists_ h filename = true
        ∧ get_file h [filename] = Some contents
        ∧ contents ≠ EmptyString
        ∧ run_parser h (select_parser filename contents) contents = Some parsed
        ∧ (findIt = false → filename ∈ files).
Proof.
  revert c. induction files as [|filename0 more IH]; intros c.
  { intros [= <-]. exists []. left. by rewrite with_diagnostics_same. }
  cbn [add_config_loop]. intros Hloop.
  apply bind_Ok in Hloop as ([found c0] & Hfound & Hloop).
  (* the state after the probes of this turn *)
  assert (∃ probes0, c0 = with_diagnostics (_diagnostics c ++ probes0) c
                     ∧ (findIt = false → found = Some filename0)) as (probes0 & -> & Hdirect).
  { destruct findIt.
    - apply _find_ledger in Hfound as (probes0 & -> & _). by exists probes0.
    - injection Hfound as <- <-. exists [filename0]. by rewrite push_diagnostic_ledger. }
  set (c0 := with_diagnostics (_diagnostics c ++ probes0) c) in *.
  (* going on with the next candidate *)
  assert (add_config_loop h file findIt more c0 = Ok c' →
          ∃ probes,
            let c1 := with_diagnostics (_diagnostics c ++ probes) c in
            c' = c1
            ∨ ∃ parsed filename contents,
                c' = push_config parsed file filename c1
                ∧ truthy parsed = true ∧ exists_ h filename = true
                        ∧ get_file h [filename] = Some contents ∧ contents ≠ EmptyString
                ∧ run_parser h (select_parser filename contents) contents = Some parsed
                ∧ (findIt = false → filename ∈ filename0 :: more)) as Hnext.
  { intros (probes & Hc')%IH. exists (probes0 ++ probes)%list. cbn zeta in *.
    unfold c0 in Hc'. rewrite with_diagnostics_twice in Hc'.
    cbn [_diagnostics with_diagnostics] in Hc'. rewrite <-app_assoc in Hc'.
    destruct Hc' as [->|(parsed & filename & contents & -> & ? & ? & ? & ? & ? & Hin)];
      [by left|right].
    exists parsed, filename, contents. repeat (split; [done|]).
    intros Hf. right. by apply Hin. }
  destruct found as [filename|]; [|by apply Hnext].
  destruct (String.eqb filename EmptyString || negb (exists_ h filename) || _) eqn:Hskip;
    [by apply Hnext|].
  apply orb_false_elim in Hskip as [Hskip Hloaded].
  apply orb_false_elim in Hskip as [Hne Hex]. apply negb_false_iff in Hex.
  destruct (get_file h [filename]) as [contents|] eqn:Hfile; [|by apply Hnext].
  destruct (String.eqb contents EmptyString) eqn:Hempty; [by apply Hnext|].
  destruct (run_parser h (select_parser filename contents) contents) as [parsed|] eqn:Hparse;
    [|by apply Hnext].
  cbn [default from_option id] in Hloop.
  destruct (truthy parsed) eqn:Htruthy; [|by apply Hnext].
  injection Hloop as <-. exists probes0. right. exists parsed, filename, contents.
  repeat (split; [done|]). split; [by intros ->|]. split; [done|].
  intros Hf. specialize (Hdirect Hf). injection Hdirect as ->. left.
Qed.

Lemma add_config_file_one file findIt c c' :
  add_config_file h file findIt c = Ok c' → loaded_one h file findIt c c'.
Proof.
  unfold add_config_file. destruct (loaded file c).
  { intros [= <-]. exists []. left. by rewrite with_diagnostics_same. }
  intros (probes & Hc')%add_config_loop_spec. exists probes. cbn zeta in *.
  destruct Hc' as [->|(parsed & filename & contents & -> & ? & ? & ? & ? & ? & Hin)];
    [by left|right].
  exists parsed, filename, contents. repeat (split; [done|]).
  intros Hf. apply Hin, list_elem_of_fmap in Hf as (x & -> & Hx). eauto.
Qed.

Lemma loaded_one_same_sources file findIt c c' :
  loaded_one h file findIt c c' →
  same_sources c c' ∧ _diagnostics c `prefix_of` _diagnostics c'.
Proof.
  intros (probes & [->|(parsed & filename & contents & -> & _)]);
    (split; [done|by exists probes]).
Qed.

Lemma loaded_one_loader_ok file findIt c c' :
  loaded_one h file findIt c c' → loader_ok h c → loader_ok h c'.
Proof.
  intros (probes & [->|(parsed & filename & contents & -> & Ht & Hex & _)]); [done|].
  intros (Hl1 & Hl2 & Hfiles & Htrees). unfold loader_ok. cbn.
  rewrite !length_app, Hl1, Hl2. repeat split; try done.
  - apply Forall_app. split; [done|]. by constructor.
  - apply Forall_app. split; [done|]. by constructor.
Qed.

Lemma add_each_keeps findIt files c c' :
  add_each h findIt files c = Ok c' →
  same_sources c c' ∧ _diagnostics c `prefix_of` _diagnostics c'
  ∧ configList c `prefix_of` configList c'
  ∧ (List.length (configList c') ≤ List.length (configList c) + List.length files)%nat
  ∧ (loader_ok h c → loader_ok h c').
Proof.
  revert c. induction files as [|fn more IH]; intros c.
  { intros [= <-]. split; [done|]. do 2 (split; [done|]). split; [simpl; lia|done]. }
  cbn [add_each]. intros Hadd. apply bind_Ok in Hadd as (c1 & H1 & Hadd).
  apply add_config_file_one in H1.
  destruct (loaded_one_same_sources _ _ _ _ H1) as [Hs1 Hd1].
  pose proof (loaded_one_loader_ok _ _ _ _ H1) as Hok1.
  destruct (IH _ Hadd) as (Hs & Hd & Hl & Hn & Hok).
  assert (configList c `prefix_of` configList c1
          ∧ (List.length (configList c1) ≤ S (List.length (configList c)))%nat) as [Hl1 Hn1].
  { destruct H1 as (probes & [->|(parsed & filename & contents & -> & _)]).
    - split; [done|]. simpl. lia.
    - split; [by eexists|]. cbn. rewrite length_app. simpl. lia. }
  split.
  { destruct Hs as (? & ? & ? & ? & ? & ? & ? & ?), Hs1 as (? & ? & ? & ? & ? & ? & ? & ?).
    unfold same_sources. repeat split; congruence. }
  split; [by etrans|]. split; [by etrans|]. split; [simpl; lia|]. auto.
Qed.

(** X5: one call of [add_config_file] returns with probes recorded and
    at most one file loaded.  A file that it loads exists, has contents
    that are not empty and gives a truthy tree under the parser selected
    for it, and a direct probe loads the name asked for with one of the
    configured extensions.  The other sources and the cache stay as they
    are, and file lists that go together still do. *)
Theorem add_config_file_loads_one file findIt c c' :
  add_config_file h file findIt c = Ok c' →
  loaded_one h file findIt c c'
  ∧ same_sources c c'
  ∧ _diagnostics c `prefix_of` _diagnostics c'
  ∧ (configList c' = configList c ∨ ∃ parsed, configList c' = (configList c ++ [parsed])%list)
  ∧ (loader_ok h c → loader_ok h c').
Proof.
  intros H1%add_config_file_one. split; [done|].
  destruct (loaded_one_same_sources _ _ _ _ H1) as [Hs Hd]. do 2 (split; [done|]).
  split; [|by apply (loaded_one_loader_ok file findIt)].
  destruct H1 as (probes & [->|(parsed & filename & contents & -> & _)]); [by left|].
  right. by exists parsed.
Qed.



Lemma add_config_loop_returns file findIt files c :
  well_rooted h → ∃ c', add_config_loop h file findIt files c = Ok c'.
Proof.
  intros Hwr. revert c. induction files as [|filename0 more IH]; intros c; [by eexists|].
  cbn [add_config_loop].
  assert (∃ found c0, (if findIt then find h filename0 c
                       else Ok (Some filename0, push_diagnostic filename0 c)) = Ok (found, c0))
    as (found & c0 & ->).
  { destruct findIt; [by apply find_returns|by eexists _, _]. }
  run. destruct found as [filename|]; [|apply IH].
  destruct (_ || _); [apply IH|]. destruct (get_file h [filename]); [|apply IH].
  destruct (String.eqb _ _); [apply IH|]. destruct (truthy _); [by eexists|apply IH].
Qed.

Lemma add_each_returns findIt files c :
  well_rooted h → ∃ c', add_each h findIt files c = Ok c'.
Proof.
  intros Hwr. revert c. induction files as [|fn more IH]; intros c; [by eexists|].
  cbn [add_each]. unfold add_config_file. destruct (loaded fn c); run; [apply IH|].
  destruct (add_config_loop_returns fn findIt ((λ x, fn +:+ x) <$> extensions (opts c)) c Hwr)
    as [c1 ->]. run. apply IH.
Qed.

Lemma add_files_same_sources c c' :
  add_files h c = Ok c' → same_sources c c' ∧ (loader_ok h c → loader_ok h c').
Proof.
  unfold add_files. intros Hadd.
  apply bind_Ok in Hadd as (c1 & H1 & Hadd). apply bind_Ok in Hadd as (c2 & H2 & H3).
  assert (same_sources c c1 ∧ (loader_ok h c → loader_ok h c1)) as [Hs1 Hok1].
  { destruct (negb (String.eqb (platform h) "win32")).
    - by apply add_each_keeps in H1 as (? & _ & _ & _ & ?).
    - by injection H1 as <-. }
  assert (same_sources c1 c2 ∧ (loader_ok h c1 → loader_ok h c2)) as [Hs2 Hok2].
  { destruct (negb (String.eqb (homedir h) EmptyString)).
    - by apply add_each_keeps in H2 as (? & _ & _ & _ & ?).
    - by injection H2 as <-. }
  apply add_each_keeps in H3 as (Hs3 & _ & _ & _ & Hok3).
  destruct Hs1 as (? & ? & ? & ? & ? & ? & ? & ?), Hs2 as (? & ? & ? & ? & ? & ? & ? & ?),
    Hs3 as (? & ? & ? & ? & ? & ? & ? & ?).
  split; [unfold same_sources; repeat split; congruence|auto].
Qed.

(** X7: on a host where every directory that is not its own parent has
    a parent nearer to the root, discovery returns: no missing, unreadable
    or malformed file makes it raise, and no search runs out of its
    bound. *)
Theorem add_files_returns c : well_rooted h → ∃ c', add_files h c = Ok c'.
Proof.
  intros Hwr. unfold add_files.
  assert (∀ (b : bool) files c0, ∃ c1,
            (if b then add_each h false files c0 else Ok c0) = Ok c1) as Hopt.
  { intros [] files c0; [by apply add_each_returns|by eexists]. }
  destruct (Hopt (negb (String.eqb (platform h) "win32"))
              ((λ parts, path_join h ("/etc" :: parts))
                 <$> [[appName c; "config"]; [appName c +:+ "rc"]; [appName c]]) c)
    as [c1 ->]. run.
  match goal with |- context [if ?b then add_each h false ?files c1 else _] =>
    destruct (Hopt b files c1) as [c2 ->] end. run.
  by apply add_each_returns.
Qed.

(** X8: a name that [add_config_file] has loaded a file for is not
    looked for again: a later call with the same name, by direct probe or
    by search, changes nothing. *)
Theorem loaded_name_is_skipped file findIt findIt' c c' :
  add_config_file h file findIt c = Ok c' →
  configList c' ≠ configList c →
  add_config_file h file findIt' c' = Ok c'.
Proof.
  intros (probes & [->|(parsed & filename & contents & -> & _)])%add_config_file_one Hne;
    [done|].
  unfold add_config_file, loaded. cbn [configFiles push_config with_diagnostics].
  rewrite bool_decide_eq_true_2; [done|]. apply elem_of_app. right. by left.
Qed.
(** X9: the tree that [add_config_file] loads for a file is the one that
    [parse] returns for the path and the contents of that file, and the
    path is the contributor recorded last. *)
Theorem loader_agrees_with_parse file findIt c c' :
  add_config_file h file findIt c = Ok c' →
  configList c' ≠ configList c →
  ∃ filename contents,
    get_file h [filename] = Some contents
    ∧ last (cookedConfigFiles c') = Some filename
    ∧ last (configFiles c') = Some file
    ∧ last (configList c') = Some (parse h filename contents).
Proof.
  intros (probes & [->|(parsed & filename & contents & -> & _ & _ & Hfile & _ & Hparse & _)])
           %add_config_file_one Hne; [done|].
  exists filename, contents. cbn [cookedConfigFiles configFiles configList push_config].
  rewrite !last_snoc. unfold parse. by rewrite Hparse.
Qed.
End loader.

(** ** Witnesses for the loader *)

Lemma add_config_file_loads_one_witness :
  ∃ c',
    add_config_file one_file_host "/work/.apprc" false blank = Ok c'
    ∧ configList c' = [object [("x", VNum 2)]]
    ∧ cookedConfigFiles c' = ["/work/.apprc.json5"]
    ∧ (loaded_one one_file_host "/work/.apprc" false blank c'
       ∧ same_sources blank c'
       ∧ _diagnostics blank `prefix_of` _diagnostics c'
       ∧ (configList c' = configList blank
          ∨ ∃ parsed, configList c' = (configList blank ++ [parsed])%list)
       ∧ (loader_ok one_file_host blank → loader_ok one_file_host c')).
Proof.
  eexists. split; [vm_compute; reflexivity|]. split; [vm_compute; reflexivity|].
  split; [vm_compute; reflexivity|].
  apply (add_config_file_loads_one one_file_host "/work/.apprc" false blank).
  vm_compute. reflexivity.
Defined.


Lemma add_files_returns_witness : ∃ c', add_files one_file_host blank = Ok c'.
Proof. apply (add_files_returns one_file_host blank). apply posix_well_rooted. Defined.

Lemma loaded_name_is_skipped_witness :
  ∃ c',
    add_config_file one_file_host "/work/.apprc" false blank = Ok c'
    ∧ configFiles c' = ["/work/.apprc"]
    ∧ add_config_file one_file_host "/work/.apprc" true c' = Ok c'.
Proof.
  eexists. split; [vm_compute; reflexivity|]. split; [vm_compute; reflexivity|].
  apply (loaded_name_is_skipped one_file_host "/work/.apprc" false true blank).
  - vm_compute. reflexivity.
  - vm_compute. discriminate.
Defined.

Lemma loader_agrees_with_parse_witness :
  ∃ c',
    add_config_file one_file_host "/work/.apprc" false blank = Ok c'
    ∧ ∃ filename contents,
        get_file one_file_host [filename] = Some contents
        ∧ last (cookedConfigFiles c') = Some filename
        ∧ last (configFiles c') = Some "/work/.apprc"
        ∧ last (configList c') = Some (parse one_file_host filename contents).
Proof.
  eexists. split; [vm_compute; reflexivity|].
  apply (loader_agrees_with_parse one_file_host "/work/.apprc" false blank).
  - vm_compute. reflexivity.
  - vm_compute. discriminate.
Defined.

(** ** The constructor and the states of an instance *)

Section instance.
Variable h : Host.
Implicit Types (c : Configuration) (key : string) (v : value).
#[local] Arguments js_get : simpl never.
#[local] Arguments js_put : simpl never.

Lemma new_Configuration_start name dflts c :
  new_Configuration h name dflts = Ok c →
  appName c = name
  ∧ keyAppName c = key_app_name (appName c) (hyphenSubstitute (opts c))
  ∧ overrides c = empty_object
  ∧ loader_ok h c.
Proof.
  unfold new_Configuration. intros Hnew.
  apply bind_Ok in Hnew as (o & Ho & Hnew).
  destruct (String.eqb name EmptyString); [done|].
  apply bind_Ok in Hnew as (e & He & Hnew).
  apply bind_Ok in Hnew as (a & _ & Hnew).
  apply bind_Ok in Hnew as (d & _ & Hnew).
  apply bind_Ok in Hnew as (this & Hadd & [= <-]).
  apply add_files_same_sources in Hadd as [Hs Hok].
  destruct Hs as (Hopts & Hname & Hkey & _ & _ & _ & Hov & _). cbn in *.
  rewrite Hopts, Hname, Hkey, Hov. repeat (split; [done|]).
  apply Hok. repeat split; by constructor.
Qed.

(** X10: what the constructor returns: the options read from the
    defaults, the name as given and its key, the tree of the environment,
    no override, a cache that holds the merge, and file lists that go
    together (every loaded path an existing file, every tree truthy). *)
Theorem new_Configuration_establishes name dflts c :
  new_Configuration h name dflts = Ok c →
  options_of dflts = Ok (opts c)
  ∧ appName c = name
  ∧ keyAppName c = key_app_name name (hyphenSubstitute (opts c))
  ∧ parse_env (keyAppName c) (process_env h) (delimiter (opts c)) = Ok (env c)
  ∧ overrides c = empty_object
  ∧ merged c = merge c
  ∧ loader_ok h c.
Proof.
  intros Hnew. destruct (new_Configuration_start _ _ _ Hnew) as (Hname & Hkey & Hov & Hok).
  rewrite Hname in Hkey. unfold new_Configuration in Hnew.
  apply bind_Ok in Hnew as (o & Ho & Hnew).
  destruct (String.eqb name EmptyString); [done|].
  apply bind_Ok in Hnew as (e & He & Hnew).
  apply bind_Ok in Hnew as (a & _ & Hnew).
  apply bind_Ok in Hnew as (d & _ & Hnew).
  apply bind_Ok in Hnew as (this & Hadd & [= Hc]).
  apply add_files_same_sources in Hadd as [(Hopts & _ & Hk & Henv & _) _].
  subst c. cbn in *. rewrite Hopts, Hk, Henv. done.
Qed.

(** The overrides of an instance are a mapping. *)
Lemma reachable_overrides c : reachable h c → ∃ props, overrides c = VNode KMap props.
Proof.
  induction 1 as [name dflts c Hnew|key v c c' _ [p IH] Hset|key v c e _ IH _|c _ IH].
  - apply new_Configuration_start in Hnew as (_ & _ & -> & _). by eexists.
  - unfold set in Hset. apply bind_Ok in Hset as ([r o] & Hg & [= <-]). simpl in *.
    rewrite IH in Hg. by apply _getset_keeps_mapping in Hg.
  - done.
  - unfold get. by destruct (truthy (merged c)).
Qed.

(** X11: on every instance that the constructor, [set] and [get] lead
    to, the overrides are a mapping, the key of the application is the one
    computed from its name and the substitute, and the file lists are
    those of the constructor's discovery: [set] and [get] load and drop no
    file. *)
Theorem reachable_keeps c :
  reachable h c →
  (∃ props, overrides c = VNode KMap props)
  ∧ keyAppName c = key_app_name (appName c) (hyphenSubstitute (opts c))
  ∧ loader_ok h c.
Proof.
  intros Hr. split; [by apply reachable_overrides|].
  induction Hr as [name dflts c Hnew|key v c c' _ IH Hset|key v c e _ IH _|c _ IH].
  - by apply new_Configuration_start in Hnew as (_ & ? & _ & ?).
  - unfold set in Hset. by apply bind_Ok in Hset as ([r o] & _ & [= <-]).
  - done.
  - unfold get. by destruct (truthy (merged c)).
Qed.




(** X13: [set] changes what [get()] returns under the first key of its
    path only: every other top-level key has, in the tree returned after
    the [set], the value that the merge gave it before. *)
Theorem set_keeps_other_keys key v c c' k k' :
  reachable h c → key ≠ EmptyString →
  set key v c = Ok c' →
  head (keys_of key) = Some k → k' ≠ k →
  own_props (get c').1 !! k' = own_props (merge c) !! k'.
Proof.
  intros Hr Hkey Hset Hhead Hne. destruct (reachable_overrides c Hr) as [p Hov].
  unfold set in Hset. apply bind_Ok in Hset as ([r o] & Hg & [= <-]).
  cbn [overrides with_merged] in Hg. rewrite Hov in Hg.
  destruct (_getset_keeps_mapping _ _ _ _ _ Hg) as [po ->].
  rewrite _getset_walk in Hg by done. cbn [truthy] in Hg.
  apply bind_Ok in Hg as ([last o1] & Hw & [= _ ->]).
  pose proof (walk_keeps_siblings KMap p _ _ _ _ _ k k' Hhead (eq_refl false) Hw Hne)
    as Hsame.
  unfold get. cbn [merged with_overrides with_merged truthy fst].
  unfold merge. rewrite !Object_assign_lookup.
  cbn [defaults configList env argv overrides with_overrides with_merged].
  rewrite Hov. cbn [rev]. rewrite !rev_app_distr. cbn [rev app].
  rewrite (lookup_first_cons k' (VNode KMap po)), (lookup_first_cons k' (VNode KMap p)).
  cbn [own_props]. by rewrite Hsame.
Qed.
End instance.

(** ** Witnesses for the constructor and the instance *)

Lemma new_Configuration_establishes_witness :
  ∃ c,
    new_Configuration shallow_host "app" empty_object = Ok c
    ∧ env c = object [("a", object [("q", VNum 2)])]
    ∧ (options_of empty_object = Ok (opts c)
       ∧ appName c = "app"
       ∧ keyAppName c = key_app_name "app" (hyphenSubstitute (opts c))
       ∧ parse_env (keyAppName c) (process_env shallow_host) (delimiter (opts c))
         = Ok (env c)
       ∧ overrides c = empty_object
       ∧ merged c = merge c
       ∧ loader_ok shallow_host c).
Proof.
  eexists. split; [vm_compute; reflexivity|]. split; [vm_compute; reflexivity|].
  apply (new_Configuration_establishes shallow_host "app" empty_object).
  vm_compute. reflexivity.
Defined.

Lemma reachable_keeps_witness :
  ∃ c0 c,
    new_Configuration one_file_host "app" empty_object = Ok c0
    ∧ set "a.b" (VNum 5) c0 = Ok c
    ∧ ((∃ props, overrides c = VNode KMap props)
       ∧ keyAppName c = key_app_name (appName c) (hyphenSubstitute (opts c))
       ∧ loader_ok one_file_host c).
Proof.
  eexists _, _. split; [vm_compute; reflexivity|]. split; [vm_compute; reflexivity|].
  apply (reachable_keeps one_file_host).
  eapply reach_set with (key := "a.b") (v := VNum 5).
  - eapply reach_new with (appName := "app") (defaults := empty_object).
    vm_compute. reflexivity.
  - vm_compute. reflexivity.
Defined.


Lemma set_keeps_other_keys_witness :
  ∃ c c',
    new_Configuration shallow_host "app" (object [("x", VNum 1)]) = Ok c
    ∧ set "a.b" (VNum 5) c = Ok c'
    ∧ own_props (merge c) !! KStr "x" = Some (VNum 1)
    ∧ own_props (get c').1 !! KStr "x" = own_props (merge c) !! KStr "x".
Proof.
  eexists _, _. split; [vm_compute; reflexivity|]. split; [vm_compute; reflexivity|].
  split; [vm_compute; reflexivity|].
  apply (set_keeps_other_keys shallow_host "a.b" (VNum 5) _ _ (KStr "a") (KStr "x")).
  - eapply reach_new with (appName := "app") (defaults := object [("x", VNum 1)]).
    vm_compute. reflexivity.
  - discriminate.
  - vm_compute. reflexivity.
  - reflexivity.
  - discriminate.
Defined.

(** ** More on the environment extractor *)

Section environment.
Implicit Types (keyname delim : string) (envs : value) (obj : list (string * value)).

Lemma lc_char_twice c : Str.lc_char (Str.lc_char c) = Str.lc_char c.
Proof. by destruct c as [[] [] [] [] [] [] [] []]. Qed.

Lemma lc_twice s : Str.lc (Str.lc s) = Str.lc s.
Proof. induction s as [|c s IH]; simpl; [done|]. by rewrite lc_char_twice, IH. Qed.

Lemma parse_env_step_outside keyname delim envs entry :
  in_namespace keyname delim entry = false →
  parse_env_step keyname delim envs entry = Ok envs.
Proof.
  unfold in_namespace, parse_env_step. destruct (entry.2); try done.
  intros [-> ->]%orb_false_elim. done.
Qed.

Lemma parse_env_from_filter keyname delim envs obj :
  parse_env_from keyname delim envs (List.filter (in_namespace keyname delim) obj)
  = parse_env_from keyname delim envs obj.
Proof.
  revert envs. induction obj as [|entry obj IH]; intros envs; [done|]. simpl.
  destruct (in_namespace keyname delim entry) eqn:Hin.
  - simpl. destruct (parse_env_step keyname delim envs entry); simpl; auto.
  - by rewrite (parse_env_step_outside _ _ _ _ Hin), IH.
Qed.

(** X14: the extractor reads only the variables of the namespace:
    variables whose value is not a string, or whose lower-cased name is
    neither the namespace nor starts with the namespace and the delimiter,
    can be left out without a change to the result, wherever they stand
    among the others. *)
Theorem parse_env_reads_namespace keyname delim obj :
  parse_env keyname (List.filter (in_namespace keyname delim) obj) delim
  = parse_env keyname obj delim.
Proof. unfold parse_env. destruct (_ || _); [apply parse_env_from_filter|done]. Qed.

Lemma parse_env_step_lc keyname delim envs name v :
  parse_env_step keyname delim envs (Str.lc name, v)
  = parse_env_step keyname delim envs (name, v).
Proof. unfold parse_env_step. simpl. by rewrite lc_twice. Qed.

(** X15: the extractor looks at the name of a variable in lower case
    only: with every name of the list of variables replaced by its
    lower-case form, the result is the same. *)
Theorem parse_env_ignores_case keyname delim obj :
  parse_env keyname ((fun entry => (Str.lc entry.1, entry.2)) <$> obj) delim
  = parse_env keyname obj delim.
Proof.
  unfold parse_env. destruct (_ || _); [|done]. generalize empty_object.
  induction obj as [|[name v] obj IH]; intros envs; [done|].
  cbn [fmap list_fmap parse_env_from fst snd]. rewrite parse_env_step_lc.
  destruct (parse_env_step keyname delim envs (name, v)); simpl; auto.
Qed.

Lemma parse_env_step_mapping keyname delim props entry envs' :
  parse_env_step keyname delim (VNode KMap props) entry = Ok envs' →
  ∃ props', envs' = VNode KMap props'.
Proof.
  unfold parse_env_step. destruct (entry.2); try (intros [= <-]; by eexists).
  match goal with |- context [match ?m with Some _ => _ | None => _ end] => destruct m as [[k v]|] end;
    [|intros [= <-]; by eexists].
  intros (k' & _ & Hw)%bind_Ok. apply bind_Ok in Hw as ([r o] & Hg & [= <-]).
  by apply _getset_keeps_mapping in Hg.
Qed.

(** X16: the tree of the environment is a mapping, whatever the
    variables are, also when none is in the namespace. *)
Theorem parse_env_mapping keyname delim obj envs :
  parse_env keyname obj delim = Ok envs → ∃ props, envs = VNode KMap props.
Proof.
  unfold parse_env. destruct (_ || _); [|done]. unfold empty_object.
  generalize (∅ : gmap key value).
  induction obj as [|entry obj IH]; intros props; [intros [= <-]; by eexists|].
  cbn [parse_env_from]. intros (envs1 & H1 & Hrest)%bind_Ok.
  apply parse_env_step_mapping in H1 as [props1 ->]. by apply IH in Hrest.
Qed.
End environment.

Lemma parse_env_mapping_witness :
  parse_env "app" [("APP_A_Q", VStr "2"); ("HOME", VStr "/home/u")] "_"
  = Ok (object [("a", object [("q", VNum 2)])])
  ∧ ∃ props, object [("a", object [("q", VNum 2)])] = VNode KMap props.
Proof.
  split; [vm_compute; reflexivity|].
  apply (parse_env_mapping "app" "_" [("APP_A_Q", VStr "2"); ("HOME", VStr "/home/u")]).
  vm_compute. reflexivity.
Defined.

(** ** More on the selection of the parser *)

Section selection.
Implicit Types (filename base ext contents s : string) (c : ascii).

Lemma last_index_lacks c i found s :
  lacks c s = true → Str.last_index_from c i found s = found.
Proof.
  revert i found. induction s as [|a s IH]; intros i found; [done|]. simpl.
  intros [Ha Hs]%andb_prop. apply negb_true_iff in Ha. rewrite Ha. by apply IH.
Qed.

Lemma last_index_app c i found base ext :
  lacks c ext = true →
  Str.last_index_from c i found (base +:+ String c ext) = (i + Z.of_nat (String.length base))%Z.
Proof.
  intros Hext. revert i found. induction base as [|a base IH]; intros i found.
  - simpl. rewrite Ascii.eqb_refl, last_index_lacks by done. lia.
  - simpl. rewrite IH. lia.
Qed.

Lemma substr_app base a ext :
  Str.substr (String.length base + 1) (base +:+ String a ext) = ext.
Proof. induction base as [|b base IH]; [done|]. exact IH. Qed.

(** X17: the extension decides before the contents are looked at: a
    file name that ends with a dot and an extension of the table, in
    upper or lower case, after at least one other character, gets the
    parser of the table whatever the file holds. *)
Theorem extension_selects_parser base ext contents p :
  base ≠ EmptyString → lacks "." ext = true →
  parsers (Str.lc ext) = Some p →
  select_parser (base +:+ "." +:+ ext) contents = p.
Proof.
  intros Hbase Hext Hp. unfold select_parser, Str.lastIndexOf.
  change ("." +:+ ext) with (String "." ext).
  rewrite last_index_app by done.
  replace (0 <? 0 + Z.of_nat (String.length base))%Z with true
    by (destruct base; [done|]; symmetry; apply Z.ltb_lt; simpl; lia).
  replace (Z.to_nat (0 + Z.of_nat (String.length base) + 1)) with (String.length base + 1)%nat
    by lia.
  by rewrite substr_app, Hp.
Qed.

Lemma extension_selects_parser_witness :
  select_parser ("/etc/app" +:+ "." +:+ "YAML") "{x:2}" = yaml.
Proof. apply extension_selects_parser; [discriminate|reflexivity|reflexivity]. Defined.

Lemma rx_brace_leading s : brace_after_spaces s = true → rx_brace_test s = true.
Proof. unfold rx_brace_test. destruct s; [done|]. cbn [rx_brace_from]. by intros ->. Qed.

Lemma brace_after_spaces_lacks s : lacks "{" s = true → brace_after_spaces s = false.
Proof.
  induction s as [|a s IH]; [done|]. simpl. intros [Ha Hs]%andb_prop.
  apply negb_true_iff in Ha. rewrite Ha. destruct (Str.is_space a); auto.
Qed.

Lemma rx_brace_lacks b s : lacks "{" s = true → rx_brace_from b s = false.
Proof.
  revert b. induction s as [|a s IH]; intros b Hs; [done|].
  cbn [rx_brace_from]. rewrite (brace_after_spaces_lacks _ Hs), andb_false_r. simpl.
  apply IH. simpl in Hs. by apply andb_prop in Hs as [_ ?].
Qed.

(** X18: a file name without a dot, or with its only dot in front, is
    never read by its extension: its contents are JSON when a brace comes
    first after white space, and INI when they hold no brace at all. *)
Theorem dotless_name_is_sniffed filename contents :
  lacks "." filename = true ∨ (∃ ext, filename = String "." ext ∧ lacks "." ext = true) →
  (brace_after_spaces contents = true → select_parser filename contents = json)
  ∧ (lacks "{" contents = true → select_parser filename contents = ini).
Proof.
  intros Hname.
  assert (select_parser filename contents = if rx_brace_test contents then json else ini)
    as ->.
  { unfold select_parser, Str.lastIndexOf. destruct Hname as [Hno|(ext & -> & Hext)].
    - by rewrite last_index_lacks.
    - change (String "." ext) with (EmptyString +:+ String "." ext).
      by rewrite last_index_app. }
  split.
  - intros H. by rewrite rx_brace_leading.
  - intros H. unfold rx_brace_test. by rewrite rx_brace_lacks.
Qed.

Lemma dotless_name_is_sniffed_witness :
  select_parser ".json" "  {x:2}" = json ∧ select_parser "Makefile" "a=1" = ini.
Proof.
  split.
  - apply (dotless_name_is_sniffed ".json" "  {x:2}"); [|reflexivity].
    right. exists "json". split; reflexivity.
  - apply (dotless_name_is_sniffed "Makefile" "a=1"); [|reflexivity].
    left. reflexivity.
Defined.
End selection.

(** ** The key of the application and the options *)

Section naming.
Implicit Types (a b sub tpl s : string) (c : ascii).

Lemma substitution_plain matched before after tpl :
  lacks "$" tpl = true → Str.substitution matched before after tpl = tpl.
Proof.
  induction tpl as [|c tpl IH]; [done|]. simpl. intros [Hc Ht]%andb_prop.
  apply negb_true_iff in Hc. rewrite Hc. by rewrite IH.
Qed.

Lemma replace_from_first c tpl before a b :
  lacks c a = true → lacks "$" tpl = true →
  Str.replace_from c tpl before (a +:+ String c b) = a +:+ tpl +:+ b.
Proof.
  intros Ha Ht. revert before. induction a as [|x a IH]; intros before.
  - simpl. by rewrite Ascii.eqb_refl, substitution_plain.
  - simpl in *. apply andb_prop in Ha as [Hx Ha]. apply negb_true_iff in Hx.
    rewrite Hx. by rewrite IH.
Qed.

Lemma replace_from_none c tpl before a :
  lacks c a = true → Str.replace_from c tpl before a = a.
Proof.
  revert before. induction a as [|x a IH]; intros before; [done|]. simpl.
  intros [Hx Ha]%andb_prop. apply negb_true_iff in Hx. rewrite Hx. by rewrite IH.
Qed.

(** X19: the key of an application is its name in lower case, with the
    first hyphen, and only that one, replaced by the substitute (a
    substitute without [$]), which is put in lower case with the rest; a
    name without hyphen is only put in lower case, and the key is always
    in lower case. *)
Theorem key_app_name_shape a b sub :
  lacks "-" a = true →
  (lacks "$" sub = true → key_app_name (a +:+ "-" +:+ b) sub = Str.lc (a +:+ sub +:+ b))
  ∧ key_app_name a sub = Str.lc a
  ∧ Str.lc (key_app_name (a +:+ "-" +:+ b) sub) = key_app_name (a +:+ "-" +:+ b) sub.
Proof.
  intros Ha. split; [|split].
  - intros Hsub. unfold key_app_name, Str.replace.
    change ("-" +:+ b) with (String "-" b). by rewrite replace_from_first.
  - unfold key_app_name, Str.replace. by rewrite replace_from_none.
  - unfold key_app_name. apply lc_twice.
Qed.

Lemma key_app_name_shape_witness :
  key_app_name ("My" +:+ "-" +:+ "Cool-App") "_" = Str.lc ("My" +:+ "_" +:+ "Cool-App")
  ∧ key_app_name "My" "_" = Str.lc "My"
  ∧ Str.lc (key_app_name ("My" +:+ "-" +:+ "Cool-App") "_")
    = key_app_name ("My" +:+ "-" +:+ "Cool-App") "_".
Proof.
  destruct (key_app_name_shape "My" "Cool-App" "_") as (H1 & H2 & H3); [reflexivity|].
  split; [apply H1; reflexivity|]. split; [exact H2|exact H3].
Defined.

(** X20: defaults that are [null] make the constructor raise a
    [TypeError] before it reads anything else; defaults that are no
    container, or a container without a [_config] that is truthy, give the
    default options. *)
Theorem options_of_defaults h name dflts :
  new_Configuration h name VNull = Throw TypeError
  ∧ (dflts ≠ VNull →
     truthy (default VUndefined (own_props (if is_node dflts then dflts else empty_object)
                                   !! KStr "_config")) = false →
     options_of dflts = Ok defaultOptions).
Proof.
  split; [done|]. intros Hnull Hconfig. unfold options_of.
  destruct dflts as [| | | | |k props]; try done.
  cbn [is_node own_props] in Hconfig.
  assert (js_get (VNode k props) (KStr "_config")
          = Ok (default VUndefined (props !! KStr "_config"))) as ->.
  { destruct k; [done|]. unfold js_get. by cbn [is_length String.eqb Ascii.eqb]. }
  run. by rewrite Hconfig.
Qed.

Lemma options_of_defaults_witness :
  new_Configuration shallow_host "app" VNull = Throw TypeError
  ∧ options_of (object [("x", VNum 1)]) = Ok defaultOptions.
Proof.
  destruct (options_of_defaults shallow_host "app" (object [("x", VNum 1)])) as [H1 H2].
  split; [exact H1|]. apply H2; [discriminate|reflexivity].
Defined.
End naming.

Section prefix_form.
Implicit Types (keyname seg name s : string) (envs : value).

Lemma starts_with_app p s : Str.starts_with p (p +:+ s) = true.
Proof. induction p as [|a p IH]; [done|]. simpl. by rewrite Ascii.eqb_refl. Qed.

Lemma eqb_app_longer p a s : String.eqb (p +:+ String a s) p = false.
Proof.
  induction p as [|b p IH]; [done|]. simpl. by rewrite IH, Tauto.if_same.
Qed.

Lemma app_assoc_string a b c : (a +:+ b) +:+ c = a +:+ (b +:+ c).
Proof.
  induction a as [|x a IH]; [done|].
  change (String x ((a +:+ b) +:+ c) = String x (a +:+ (b +:+ c))). by f_equal.
Qed.

(** X21: a variable whose lower-cased name is the namespace, the
    delimiter and more is written at the path that follows the namespace
    and ONE character: of a delimiter of several characters all but the
    first stay in the path.  The value written is the trimmed value,
    coerced. *)
Theorem parse_env_prefix_form keyname a dtail seg name s envs :
  Str.lc name = keyname +:+ String a dtail +:+ seg →
  parse_env_step keyname (String a dtail) envs (name, VStr s)
  = (key ← (if String.eqb (String a dtail) "." then Ok (dtail +:+ seg)
            else replace_delim (String a dtail) (dtail +:+ seg));
     '(_, envs') ← _getset envs key (Some (coerce (Some (Str.trim s))));
     Ok envs').
Proof.
  intros Hname. unfold parse_env_step. cbn [fst snd]. rewrite Hname.
  change (String a dtail +:+ seg) with (String a (dtail +:+ seg)).
  rewrite eqb_app_longer.
  rewrite substr_app.
  change (keyname +:+ String a (dtail +:+ seg))
    with (keyname +:+ (String a dtail +:+ seg)).
  by rewrite <-app_assoc_string, starts_with_app.
Qed.

Lemma parse_env_prefix_form_witness :
  parse_env_step "app" "__" empty_object ("APP__X", VStr " 1 ")
  = '(_, envs') ← _getset empty_object "_x" (Some (VNum 1)); Ok envs'.
Proof. exact (parse_env_prefix_form "app" "_" "_" "x" "APP__X" " 1 " empty_object eq_refl). Defined.
End prefix_form.
